(** * dblp.py: field extraction, crossref merging, journal expansion,
      candidate selection and rendering

    A shallow embedding of [src/dblp.py].

    Data model.
    - A Python [str] is a [list ascii]; a character is a code point below
      256 (the Latin-1 range of Python's [str]), with Python's own
      classification of these code points ([str.isspace], [str.isdigit],
      [str.lower]).
    - A Python [int] is a [Z]; [text[i]] follows Python's indexing, negative
      indices included.
    - [str | None] is [option str]; a [dict[str, str | None]] is a
      [gmap str (option str)].
    - A call that may raise returns an [outcome]. *)

From Stdlib Require Import ZArith Ascii String List Lia DecimalString.
From stdpp Require Import base option list gmap strings.

Local Open Scope Z_scope.

(** ** Characters and strings *)

Abbreviation str := (list ascii).

Definition lbrace : ascii := "{"%char.
Definition rbrace : ascii := "}"%char.
Definition dquote : ascii := "034"%char.
Definition backslash : ascii := "092"%char.
Definition equals : ascii := "="%char.
Definition space : ascii := " "%char.

(** A string literal of the source. *)
Definition chars (s : string) : str := list_ascii_of_string s.

(** [ord(c)]. *)
Definition ord (c : ascii) : Z := Z.of_N (N_of_ascii c).

(** [chr(n)] for [0 <= n < 256]. *)
Definition chr (n : Z) : ascii := ascii_of_N (Z.to_N n).

(** [len(s)]. *)
Definition len (s : str) : Z := Z.of_nat (length s).

(** [c.isspace()]: the whitespace code points below 256 are TAB..CR,
    FS..US, SPACE, NEL (0x85) and NBSP (0xA0). The regular expression
    class [\s] of a [str] pattern is the same set. *)
Definition isspace (c : ascii) : bool :=
  let n := ord c in
  ((9 <=? n) && (n <=? 13)) || ((28 <=? n) && (n <=? 32))
  || (n =? 133) || (n =? 160).

(** [c.isdigit()]: besides the decimal digits, the superscripts two, three
    (0xB2, 0xB3) and one (0xB9) are digits for [str.isdigit]. *)
Definition isdigit_char (c : ascii) : bool :=
  let n := ord c in
  ((48 <=? n) && (n <=? 57)) || (n =? 178) || (n =? 179) || (n =? 185).

(** The characters [int()] reads as decimal digits. *)
Definition isdecimal_char (c : ascii) : bool :=
  let n := ord c in (48 <=? n) && (n <=? 57).

(** [c.lower()] on one code point: A..Z and the capital letters 0xC0..0xDE
    (without the multiplication sign 0xD7) move up by 32. *)
Definition lower_char (c : ascii) : ascii :=
  let n := ord c in
  if ((65 <=? n) && (n <=? 90))
     || ((192 <=? n) && (n <=? 222) && negb (n =? 215))
  then chr (n + 32) else c.

(** [s.lower()]. *)
Definition lower (s : str) : str := map lower_char s.

(** [s.lstrip()], [s.rstrip()] and [s.strip()]. *)
Fixpoint lstrip (s : str) : str :=
  match s with
  | [] => []
  | c :: s' => if isspace c then lstrip s' else s
  end.

Definition rstrip (s : str) : str := rev (lstrip (rev s)).

Definition strip (s : str) : str := rstrip (lstrip s).

(** [text[i]] with Python's negative indices; [None] is an [IndexError]. *)
Definition getitem (text : str) (i : Z) : option ascii :=
  if 0 <=? i then text !! Z.to_nat i
  else if 0 <=? len text + i then text !! Z.to_nat (len text + i)
  else None.

(** ** Exceptions *)

(** The exceptions of class [Exception] that the modelled code can meet.
    [RetrievalError] stands for whatever [http_get] raises (URLError,
    HTTPError, UnicodeDecodeError, ...), named by its text. *)
Inductive exception : Type :=
  | IndexError
  | ValueError
  | ZeroDivisionError
  | RetrievalError (what : string).

Inductive outcome (A : Type) : Type :=
  | Return (a : A)
  | Raise (e : exception).
Arguments Return {A} a.
Arguments Raise {A} e.

(** ** ValueScanner *)

(** The [while i < len(text)] loop of [_extract_braced_value]. [i] only
    ever grows by one, so the loop is counted by [remaining], the number of
    positions left: [i = len(text) - remaining]. *)
Fixpoint braced_loop (text : str) (remaining : nat) (depth : Z)
    (value_chars : str) : outcome (option str) :=
  match remaining with
  | O => Return None
  | S remaining' =>
      let i := len text - Z.of_nat remaining in
      match getitem text i with
      | None => Raise IndexError
      | Some char =>
          if Ascii.eqb char lbrace then
            braced_loop text remaining' (depth + 1) (value_chars ++ [char])
          else if Ascii.eqb char rbrace then
            if depth =? 0 then Return (Some (strip value_chars))
            else braced_loop text remaining' (depth - 1) (value_chars ++ [char])
          else
            braced_loop text remaining' depth (value_chars ++ [char])
      end
  end.

Definition _extract_braced_value (text : str) (start_index : Z)
    : outcome (option str) :=
  if len text <=? start_index then Return None
  else
    match getitem text start_index with
    | None => Raise IndexError
    | Some c =>
        if negb (Ascii.eqb c lbrace) then Return None
        else braced_loop text (Z.to_nat (len text - (start_index + 1))) 0 []
    end.

(** The [while] loop of [_extract_quoted_value], counted like the one
    above. [text[i - 1]] is read only when [char] is a quote ([and] is
    short-circuit). *)
Fixpoint quoted_loop (text : str) (remaining : nat) (value_chars : str)
    : outcome (option str) :=
  match remaining with
  | O => Return None
  | S remaining' =>
      let i := len text - Z.of_nat remaining in
      match getitem text i with
      | None => Raise IndexError
      | Some char =>
          if Ascii.eqb char dquote then
            match getitem text (i - 1) with
            | None => Raise IndexError
            | Some before =>
                if negb (Ascii.eqb before backslash) then
                  Return (Some (strip value_chars))
                else quoted_loop text remaining' (value_chars ++ [char])
            end
          else quoted_loop text remaining' (value_chars ++ [char])
      end
  end.

Definition _extract_quoted_value (text : str) (start_index : Z)
    : outcome (option str) :=
  if len text <=? start_index then Return None
  else
    match getitem text start_index with
    | None => Raise IndexError
    | Some c =>
        if negb (Ascii.eqb c dquote) then Return None
        else quoted_loop text (Z.to_nat (len text - (start_index + 1))) []
    end.

(** ** FieldExtractor *)

(** The pattern [re.escape(field_name) \s* = \s* ([{dquote])] compiled with
    [re.IGNORECASE], as the [re] module runs it on code points below 256.

    - The escaped name matches itself character by character; under
      IGNORECASE a text character [c] matches a pattern character [p] when
      their lower-case forms agree.
    - [\s*] is greedy; the character that has to follow it ([=] or a
      delimiter) is no whitespace, so giving back whitespace never helps and
      the run is simply skipped, which is [lstrip].
    - [search] tries the start positions from left to right. *)
Fixpoint match_name (name s : str) : option str :=
  match name with
  | [] => Some s
  | p :: name' =>
      match s with
      | [] => None
      | c :: s' =>
          if Ascii.eqb (lower_char c) (lower_char p) then match_name name' s'
          else None
      end
  end.

(** A match that starts at the head of [s]: the delimiter (group 1) and
    the text after the match. *)
Definition match_here (name s : str) : option (ascii * str) :=
  match match_name name s with
  | None => None
  | Some s1 =>
      match lstrip s1 with
      | c :: s2 =>
          if Ascii.eqb c equals then
            match lstrip s2 with
            | d :: s3 =>
                if Ascii.eqb d lbrace || Ascii.eqb d dquote then Some (d, s3)
                else None
            | [] => None
            end
          else None
      | [] => None
      end
  end.

Fixpoint search_from (name s : str) : option (ascii * str) :=
  match match_here name s with
  | Some r => Some r
  | None =>
      match s with
      | [] => None
      | _ :: s' => search_from name s'
      end
  end.

(** A match object: [match.group(1)] and [match.end()]. *)
Record Match : Type := { group1 : ascii; match_end : Z }.

(** [pattern.search(bibtex)]. *)
Definition pattern_search (field_name bibtex : str) : option Match :=
  match search_from field_name bibtex with
  | None => None
  | Some (d, rest) => Some {| group1 := d; match_end := len bibtex - len rest |}
  end.

Definition extract_field_value (bibtex field_name : str)
    : outcome (option str) :=
  match pattern_search field_name bibtex with
  | None => Return None
  | Some m =>
      let delimiter := group1 m in
      let start_index := match_end m - 1 in
      if Ascii.eqb delimiter lbrace then _extract_braced_value bibtex start_index
      else _extract_quoted_value bibtex start_index
  end.

(** ** Field sets *)

(** [fields.get(name)]. *)
Definition dict_get (fields : gmap str (option str)) (name : str) : option str :=
  default None (fields !! name).

(** Truth value of a [str | None]: [None] and the empty string are false. *)
Definition truthy (value : option str) : bool :=
  match value with
  | Some (_ :: _) => true
  | _ => false
  end.

(** ** RecordRenderer *)

Definition FIELD_ORDER : list str :=
  [ chars "author"; chars "title"; chars "journal"; chars "booktitle";
    chars "series"; chars "volume"; chars "number"; chars "pages";
    chars "year"; chars "doi" ].

(** [re.sub(r"\s+", " ", value)]: every maximal run of whitespace becomes
    one space. [in_run] says that the previous character was whitespace. *)
Fixpoint sub_spaces (in_run : bool) (value : str) : str :=
  match value with
  | [] => []
  | c :: value' =>
      if isspace c then
        if in_run then sub_spaces true value'
        else space :: sub_spaces true value'
      else c :: sub_spaces false value'
  end.

(** [f"{name:<{width}}"]: left-aligned, padded with spaces up to [width]. *)
Definition ljust (name : str) (width : Z) : str :=
  name ++ replicate (Z.to_nat (width - len name)) space.

(** [max(len(field) for field in FIELD_ORDER)]. *)
Definition max_len (names : list str) : Z :=
  foldr (fun field acc => Z.max (len field) acc) 0 names.

(** [sep.join(lines)]. *)
Fixpoint join (sep : str) (lines : list str) : str :=
  match lines with
  | [] => []
  | [line] => line
  | line :: rest => line ++ sep ++ join sep rest
  end.

(** The [for name in FIELD_ORDER] loop of [render_entry]; [lines] is the
    list built so far. *)
Fixpoint render_loop (names : list str) (width : Z)
    (fields : gmap str (option str)) (lines : list str) : list str :=
  match names with
  | [] => lines
  | name :: names' =>
      match dict_get fields name with
      | Some (c :: value') =>
          let value := c :: value' in
          let value_oneline := strip (sub_spaces false value) in
          let prefix := chars "  " ++ ljust name width ++ chars " = {" in
          render_loop names' width fields
            (lines ++ [prefix ++ value_oneline ++ chars "},"])
      | _ => render_loop names' width fields lines
      end
  end.

(** The list [lines] of [render_entry] just before it is joined. *)
Definition render_lines (entry_type entry_key : str)
    (fields : gmap str (option str)) : list str :=
  let width := max_len FIELD_ORDER in
  let lines := [chars "%"; chars "@" ++ entry_type ++ chars "{" ++ entry_key ++ chars ","] in
  let lines := render_loop FIELD_ORDER width fields lines in
  lines ++ [chars "}"].

Definition render_entry (entry_type entry_key : str)
    (fields : gmap str (option str)) : str :=
  join [chr 10] (render_lines entry_type entry_key fields).

(** ** JournalNormalizer *)

Definition JOURNAL_EXPANSIONS : gmap str str :=
  <[chars "commun acm" := chars "Communications of the ACM"]>
    (<[chars "j cryptol" := chars "Journal of Cryptology"]> ∅).

(** [re.sub(r"[...]", "", value)]: drop the characters of a class. *)
Definition remove_chars (class : list ascii) (value : str) : str :=
  filter (fun c => c ∉ class) value.

Definition _normalize_journal_name (value : str) : str :=
  let no_braces := remove_chars [lbrace; rbrace] value in
  let no_punct := remove_chars (chars ".,:;") no_braces in
  lower (strip (sub_spaces false no_punct)).

Definition expand_journal_name (value : option str) : option str :=
  match value with
  | Some (c :: value') =>
      let value := c :: value' in
      let normalized := _normalize_journal_name value in
      Some (default value (JOURNAL_EXPANSIONS !! normalized))
  | _ => value
  end.

(** ** CrossrefResolver *)

Section Crossref.

(** [http_get], the network transport: it returns the body or raises. *)
Variable http_get : str -> outcome str.

Definition fetch_bibtex_entry (key : str) : outcome str :=
  let bib_url := chars "https://dblp.org/rec/" ++ key ++ chars ".bib" in
  http_get bib_url.

(** The [for name in ("booktitle", "series", "year")] loop; the dict is
    updated in place, so each round sees the updates of the earlier ones. *)
Fixpoint merge_loop (names : list str) (crossref_bibtex : str)
    (fields : gmap str (option str)) : outcome (gmap str (option str)) :=
  match names with
  | [] => Return fields
  | name :: names' =>
      if negb (truthy (dict_get fields name)) then
        match extract_field_value crossref_bibtex name with
        | Raise e => Raise e
        | Return value => merge_loop names' crossref_bibtex (<[name := value]> fields)
        end
      else merge_loop names' crossref_bibtex fields
  end.

Definition merge_crossref_fields (bibtex : str)
    (fields : gmap str (option str)) : outcome (gmap str (option str)) :=
  if truthy (dict_get fields (chars "booktitle"))
     || truthy (dict_get fields (chars "series"))
  then Return fields
  else
    match extract_field_value bibtex (chars "crossref") with
    | Raise e => Raise e
    | Return crossref =>
        match crossref with
        | Some (c :: key') =>
            match fetch_bibtex_entry (c :: key') with
            | Raise _ => Return fields (* except Exception: return fields *)
            | Return crossref_bibtex =>
                merge_loop [chars "booktitle"; chars "series"; chars "year"]
                  crossref_bibtex fields
            end
        | _ => Return fields
        end
    end.

End Crossref.

(** ** SelectionEngine *)

(** [str(n)] of an [int]. *)
Definition str_of_int (n : Z) : str := chars (NilZero.string_of_int (Z.to_int n)).

(** [s.isdigit()]: not empty and made of digits. *)
Definition isdigit (s : str) : bool :=
  match s with
  | [] => false
  | _ => forallb isdigit_char s
  end.

(** [sys.get_int_max_str_digits()] at its default. *)
Definition int_max_str_digits : Z := 4300.

(** [int(s)] for the strings that reach it in [choose_with_numbers], those
    that pass [isdigit]: a string of decimal digits is read in base 10; a
    superscript digit is no decimal digit and makes [int] raise
    [ValueError], and so does a string longer than the interpreter's limit
    on digits. *)
Definition int_of_str (s : str) : outcome Z :=
  if forallb isdecimal_char s && (len s <=? int_max_str_digits) then
    Return (fold_left (fun acc c => 10 * acc + (ord c - 48)) s 0)
  else Raise ValueError.

(** How a selection ends: a hit is returned, or [KeyboardInterrupt] is
    raised to cancel. *)
Inductive selection (Hit : Type) : Type :=
  | Selected (hit : Hit)
  | Cancelled.
Arguments Selected {Hit} hit.
Arguments Cancelled {Hit}.

(** Key codes of [curses]. *)
Definition KEY_DOWN : Z := 258.
Definition KEY_UP : Z := 259.
Definition KEY_ENTER : Z := 343.

(** The state of the menu between two key presses: still waiting with the
    cursor on [idx], or finished. *)
Inductive menu (Hit : Type) : Type :=
  | Active (idx : Z)
  | Finished (result : selection Hit).
Arguments Active {Hit} idx.
Arguments Finished {Hit} result.

Section Selection.

Variable Hit : Type.

(** [hits[i]] with Python's negative indices. *)
Definition hit_at (hits : list Hit) (i : Z) : outcome Hit :=
  let found :=
    if 0 <=? i then hits !! Z.to_nat i
    else if 0 <=? Z.of_nat (length hits) + i
         then hits !! Z.to_nat (Z.of_nat (length hits) + i)
         else None in
  match found with
  | Some hit => Return hit
  | None => Raise IndexError
  end.

(** [print(line)] onto the standard output [out]. *)
Definition print (out line : str) : str := out ++ line ++ [chr 10].

Definition select_prompt (hits : list Hit) : str :=
  chars "Select [1-" ++ str_of_int (Z.of_nat (length hits)) ++ chars "]: ".

Definition invalid_notice : str := chars "Invalid selection. Try again.".

(** The [while True] loop of [choose_with_numbers]. [stdin] holds the
    lines still to be read, without their line ends; [input] raises
    [EOFError] when none is left. [out] is what has been written so far.
    The result comes with the output written. *)
Fixpoint prompt_loop (hits : list Hit) (stdin : list str) (out : str)
    : outcome (selection Hit) * str :=
  let out := out ++ select_prompt hits in
  match stdin with
  | [] => (* except EOFError: return hits[0] *)
      (match hit_at hits 0 with
       | Return hit => Return (Selected hit)
       | Raise e => Raise e
       end, out)
  | line :: stdin' =>
      let choice := match strip line with [] => chars "1" | s => s end in
      if bool_decide (lower choice = chars "q") then (Return Cancelled, out)
      else
        let retry := prompt_loop hits stdin' (print out invalid_notice) in
        if isdigit choice then
          match int_of_str choice with
          | Raise e => (Raise e, out)
          | Return n =>
              let idx := n - 1 in
              if (0 <=? idx) && (idx <? Z.of_nat (length hits)) then
                (match hit_at hits idx with
                 | Return hit => Return (Selected hit)
                 | Raise e => Raise e
                 end, out)
              else retry
          end
        else retry
  end.

(** The lines printed before the loop. *)
Fixpoint print_numbered (descriptions : list str) (i : Z) (out : str) : str :=
  match descriptions with
  | [] => out
  | desc :: rest =>
      print_numbered rest (i + 1)
        (print out (chars "  " ++ str_of_int i ++ chars ". " ++ desc))
  end.

Definition choose_with_numbers (hits : list Hit) (descriptions : list str)
    (stdin : list str) : outcome (selection Hit) * str :=
  let out := print [] (chars "Multiple entries found. Type the number to select:") in
  let out := print_numbered descriptions 1 out in
  prompt_loop hits stdin out.

(** One round of the [while True] loop of [selector], from the key that
    [getch] returns; the drawing before it leaves [idx] alone. *)
Definition selector_step (hits : list Hit) (idx key : Z) : outcome (menu Hit) :=
  let n := Z.of_nat (length hits) in
  if bool_decide (key ∈ [KEY_UP; ord "k"]) then
    if n =? 0 then Raise ZeroDivisionError else Return (Active ((idx - 1) mod n))
  else if bool_decide (key ∈ [KEY_DOWN; ord "j"]) then
    if n =? 0 then Raise ZeroDivisionError else Return (Active ((idx + 1) mod n))
  else if bool_decide (key ∈ [KEY_ENTER; 10; 10; 13]) then
    match hit_at hits idx with
    | Return hit => Return (Finished (Selected hit))
    | Raise e => Raise e
    end
  else if bool_decide (key ∈ [27; ord "q"; ord "Q"]) then
    Return (Finished Cancelled)
  else Return (Active idx).

(** [selector] on the keys pressed, from the cursor [idx]; when the keys
    are used up the menu is still waiting. *)
Fixpoint selector_from (hits : list Hit) (idx : Z) (keys : list Z)
    : outcome (menu Hit) :=
  match keys with
  | [] => Return (Active idx)
  | key :: keys' =>
      match selector_step hits idx key with
      | Return (Active idx') => selector_from hits idx' keys'
      | r => r
      end
  end.

Definition selector (hits : list Hit) (keys : list Z) : outcome (menu Hit) :=
  selector_from hits 0 keys.

End Selection.

Arguments hit_at {Hit}.
Arguments prompt_loop {Hit}.
Arguments select_prompt {Hit}.
Arguments choose_with_numbers {Hit}.
Arguments selector_step {Hit}.
Arguments selector_from {Hit}.
Arguments selector {Hit}.

(** ** Entry header *)

(** The class [[A-Za-z0-9_:-]] of the entry type. *)
Definition is_type_char (c : ascii) : bool :=
  let n := ord c in
  ((65 <=? n) && (n <=? 90)) || ((97 <=? n) && (n <=? 122))
  || ((48 <=? n) && (n <=? 57))
  || Ascii.eqb c "_" || Ascii.eqb c ":" || Ascii.eqb c "-".

(** The class [[^,\s]] of the entry key. *)
Definition is_key_char (c : ascii) : bool :=
  negb (Ascii.eqb c ",") && negb (isspace c).

(** The longest run of characters of a class at the head of [s], and the
    text after it: what a greedy [+] or [*] takes first. *)
Fixpoint span (class : ascii -> bool) (s : str) : str * str :=
  match s with
  | [] => ([], [])
  | c :: s' =>
      if class c then let (run, rest) := span class s' in (c :: run, rest)
      else ([], s)
  end.

(** A match of [@\s*([A-Za-z0-9_:-]+)\s*{\s*([^,\s]+)] that starts at the
    head of [s]: groups 1 and 2. Every repetition is followed by a
    character outside its class, so the greedy run is the only one that can
    lead to a match. *)
Definition header_here (s : str) : option (str * str) :=
  match s with
  | c :: s0 =>
      if Ascii.eqb c "@" then
        match span is_type_char (lstrip s0) with
        | ([], _) => None
        | (group1, s1) =>
            match lstrip s1 with
            | c1 :: s2 =>
                if Ascii.eqb c1 lbrace then
                  match span is_key_char (lstrip s2) with
                  | ([], _) => None
                  | (group2, _) => Some (group1, group2)
                  end
                else None
            | [] => None
            end
        end
      else None
  | [] => None
  end.

(** [re.search] with that pattern: the leftmost match. *)
Fixpoint header_search (s : str) : option (str * str) :=
  match header_here s with
  | Some groups => Some groups
  | None =>
      match s with
      | [] => None
      | _ :: s' => header_search s'
      end
  end.

(** [s.startswith(prefix)]. *)
Fixpoint startswith (s prefix : str) {struct prefix} : bool :=
  match prefix, s with
  | [], _ => true
  | p :: prefix', c :: s' => Ascii.eqb c p && startswith s' prefix'
  | _ :: _, [] => false
  end.

(** [s.split(sep, 1)] for a separator of one character: the text before
    the first separator and the text after it, or [s] alone. *)
Fixpoint split_once (sep : ascii) (s : str) : list str :=
  match s with
  | [] => [[]]
  | c :: s' =>
      if Ascii.eqb c sep then [[]; s']
      else
        match split_once sep s' with
        | before :: after => (c :: before) :: after
        | [] => [[c]]
        end
  end.

(** [s.rsplit(sep, 1)]: the same from the right. *)
Definition rsplit_once (sep : ascii) (s : str) : list str :=
  match split_once sep (rev s) with
  | [after_r; before_r] => [rev before_r; rev after_r]
  | _ => [s]
  end.

(** [parts[1]]. *)
Definition second (parts : list str) : outcome str :=
  match parts !! 1%nat with
  | Some part => Return part
  | None => Raise IndexError
  end.

Definition parse_entry_header (bibtex : str) : outcome (str * str) :=
  match header_search bibtex with
  | None => Return (chars "entry", chars "unknown")
  | Some (group1, group2) =>
      let entry_key := group2 in
      match (if startswith entry_key (chars "DBLP:")
             then second (split_once ":" entry_key)
             else Return entry_key) with
      | Raise e => Raise e
      | Return entry_key =>
          match (if bool_decide ("/"%char ∈ entry_key)
                 then second (rsplit_once "/" entry_key)
                 else Return entry_key) with
          | Raise e => Raise e
          | Return entry_key => Return (group1, entry_key)
          end
      end
  end.

(** ** From the record to the printed text *)

Section Main.

(** [http_get], the network transport. *)
Variable http_get : str -> outcome str.

(** The dict comprehension [{name: extract_field_value(bibtex, name) for
    name in FIELD_ORDER}]. *)
Fixpoint extract_fields (names : list str) (bibtex : str)
    (fields : gmap str (option str)) : outcome (gmap str (option str)) :=
  match names with
  | [] => Return fields
  | name :: names' =>
      match extract_field_value bibtex name with
      | Raise e => Raise e
      | Return value => extract_fields names' bibtex (<[name := value]> fields)
      end
  end.

(** The body of [main] from the fetched record [bibtex] to the text that
    is printed. *)
Definition main_record (bibtex : str) : outcome str :=
  match parse_entry_header bibtex with
  | Raise e => Raise e
  | Return (entry_type, entry_key) =>
      match extract_fields FIELD_ORDER bibtex ∅ with
      | Raise e => Raise e
      | Return fields =>
          match merge_crossref_fields http_get bibtex fields with
          | Raise e => Raise e
          | Return fields =>
              let fields :=
                match fields !! chars "journal" with
                | Some journal =>
                    <[chars "journal" := expand_journal_name journal]> fields
                | None => fields
                end in
              Return (render_entry entry_type entry_key fields)
          end
      end
  end.

End Main.

(** ** The loops as traversals of the rest of the text *)

(** What [braced_loop] computes on the characters [s] from position [i] on. *)
Fixpoint scan_braces (s : str) (depth : nat) (value_chars : str) : option str :=
  match s with
  | [] => None
  | char :: s' =>
      if Ascii.eqb char lbrace then scan_braces s' (S depth) (value_chars ++ [char])
      else if Ascii.eqb char rbrace then
        match depth with
        | O => Some (strip value_chars)
        | S depth' => scan_braces s' depth' (value_chars ++ [char])
        end
      else scan_braces s' depth (value_chars ++ [char])
  end.

(** What [quoted_loop] computes on the characters [s] from position [i] on,
    [before] being the character at [i - 1]. *)
Fixpoint scan_quote (before : ascii) (s : str) (value_chars : str) : option str :=
  match s with
  | [] => None
  | char :: s' =>
      if Ascii.eqb char dquote && negb (Ascii.eqb before backslash)
      then Some (strip value_chars)
      else scan_quote char s' (value_chars ++ [char])
  end.

(** ** Notions of the specification *)

(** Text in which every brace is matched: the empty text, a character
    other than a brace before balanced text, or a braced group of balanced
    text before balanced text. *)
Inductive balanced : str -> Prop :=
  | balanced_nil : balanced []
  | balanced_char c s :
      c <> lbrace -> c <> rbrace -> balanced s -> balanced (c :: s)
  | balanced_group s1 s2 :
      balanced s1 -> balanced s2 -> balanced (lbrace :: s1 ++ rbrace :: s2).

(** [closes d body]: [body] closes [d] groups that are open where it
    starts, and is balanced otherwise. *)
Fixpoint closes (d : nat) (body : str) : Prop :=
  match d with
  | O => balanced body
  | S d' =>
      exists b body', body = b ++ rbrace :: body' /\ balanced b /\ closes d' body'
  end.

(** An unescaped quote at position [j] of [text]: a quote whose
    predecessor is no backslash. *)
Definition unescaped_quote (text : str) (j : nat) : Prop :=
  text !! j = Some dquote /\ text !! (j - 1)%nat <> Some backslash.

(** The same for position [m] of the text [s] that follows the character
    [before]. *)
Definition unescaped_at (before : ascii) (s : str) (m : nat) : Prop :=
  s !! m = Some dquote /\ (before :: s) !! m <> Some backslash.

(** The text between positions [i] (excluded) and [j] (excluded). *)
Definition between (text : str) (i j : nat) : str :=
  take (j - i - 1)%nat (drop (S i) text).

(** The words of the language of the field pattern for [name], ending in
    the delimiter [d]: the name in any letter case, whitespace, [=],
    whitespace, and an opening brace or quote. *)
Definition field_pattern (name : str) (d : ascii) (seg : str) : Prop :=
  exists nm ws1 ws2,
    seg = nm ++ ws1 ++ equals :: ws2 ++ [d]
    /\ lower nm = lower name
    /\ Forall (fun c => isspace c = true) ws1
    /\ Forall (fun c => isspace c = true) ws2
    /\ (d = lbrace \/ d = dquote).

(** ValueScanner on the delimiter [d] found at [start_index]. *)
Definition scan_value (d : ascii) (text : str) (start_index : Z)
    : outcome (option str) :=
  if Ascii.eqb d lbrace then _extract_braced_value text start_index
  else _extract_quoted_value text start_index.

(** A field is present when its value is neither [None] nor empty. *)
Definition present (fields : gmap str (option str)) (name : str) : bool :=
  truthy (dict_get fields name).

(** The line of a present field: two spaces, the name padded to nine
    columns, [ = {], the value on one line, and [},]. *)
Definition assignment_line (fields : gmap str (option str)) (name : str) : str :=
  chars "  " ++ name ++ replicate (9 - length name)%nat space ++ chars " = {"
  ++ strip (sub_spaces false (default [] (dict_get fields name))) ++ chars "},".

(** The start of a line that assigns the field [name]. *)
Definition assignment_prefix (name : str) : str :=
  chars "  " ++ ljust name 9 ++ chars " = {".

(** The quote-mode property of the specification read to the letter: the
    value returned at the closing quote is the accumulated text itself. *)
Definition quoted_returns_accumulated : Prop :=
  forall (text : str) (i j : nat),
    text !! i = Some dquote ->
    (i < j)%nat ->
    unescaped_quote text j ->
    (forall k, (i < k < j)%nat -> ~ unescaped_quote text k) ->
    _extract_quoted_value text (Z.of_nat i) = Return (Some (between text i j)).

(** The depth of open groups after [s], from depth [d]; [None] when a
    closing brace comes with no group open. *)
Fixpoint brace_depth (s : str) (d : nat) : option nat :=
  match s with
  | [] => Some d
  | c :: s' =>
      if Ascii.eqb c lbrace then brace_depth s' (S d)
      else if Ascii.eqb c rbrace then
        match d with
        | O => None
        | S d' => brace_depth s' d'
        end
      else brace_depth s' d
  end.

(** Text whose whitespace is collapsed: every whitespace character is a
    space and follows a character that is no whitespace. [after_space]
    tells whether whitespace comes just before the text. *)
Fixpoint collapsed (after_space : bool) (s : str) : bool :=
  match s with
  | [] => true
  | c :: s' =>
      if isspace c then
        negb after_space && Ascii.eqb c space && collapsed true s'
      else collapsed false s'
  end.


(** The number of line breaks of a text. *)
Definition newlines (text : str) : nat :=
  length (filter (fun c => c = chr 10) text).

(** [text.split(newline)]: the lines of a text. *)
Fixpoint split_lines (text : str) : list str :=
  match text with
  | [] => [[]]
  | c :: text' =>
      if Ascii.eqb c (chr 10) then [] :: split_lines text'
      else
        match split_lines text' with
        | line :: lines => (c :: line) :: lines
        | [] => [[c]]
        end
  end.

(** ** Sample inputs *)

(** A text whose quoted value, an a, a backslash, a quote and a b, holds
    an escaped quote. *)
Definition escaped_sample : str :=
  chars "t = " ++ dquote :: chars "a" ++ backslash :: dquote :: chars "b"
  ++ dquote :: chars " x".

(** A paper that points to its proceedings, the proceedings record, and
    the fields extracted from the paper. *)
Definition paper_sample : str :=
  chars "@inproceedings{DBLP:conf/x/One20, title = {T}, year = {2019}, crossref = {conf/x/2020}}".

Definition proceedings_sample : str :=
  chars "@proceedings{DBLP:conf/x/2020, booktitle = {Proc. X}, year = {2020}}".

Definition paper_fields : gmap str (option str) :=
  <[chars "title" := Some (chars "T")]>
    (<[chars "year" := Some (chars "2019")]>
       (<[chars "booktitle" := None]> (<[chars "series" := None]> ∅))).

Definition paper_fields_merged : gmap str (option str) :=
  <[chars "booktitle" := Some (chars "Proc. X")]> paper_fields.

Definition paper_fields_with_series : gmap str (option str) :=
  <[chars "series" := Some (chars "LNCS")]> paper_fields.

(** A transport that answers every request with the proceedings record,
    and one that fails on every request. *)
Definition http_get_proceedings (url : str) : outcome str :=
  Return proceedings_sample.

Definition http_get_failing (url : str) : outcome str :=
  Raise (RetrievalError "HTTP Error 404: Not Found").

(** Two fields in two orders of insertion. *)
Definition items_sample : list (str * option str) :=
  [(chars "year", Some (chars "2020")); (chars "author", Some (chars "A. One"))].

Definition items_sample_reversed : list (str * option str) :=
  [(chars "author", Some (chars "A. One")); (chars "year", Some (chars "2020"))].

(** * Properties *)

(** ** Indexing *)

Lemma len_app (s t : str) : len (s ++ t) = len s + len t.
Proof. unfold len. rewrite length_app. lia. Qed.

Lemma getitem_offset (text : str) (i : nat) :
  getitem text (Z.of_nat i) = text !! i.
Proof.
  unfold getitem. destruct (Z.leb_spec 0 (Z.of_nat i)); [|lia].
  by rewrite Nat2Z.id.
Qed.

Lemma getitem_middle (pre : str) (c : ascii) (s : str) :
  getitem (pre ++ c :: s) (len pre) = Some c.
Proof.
  unfold len. rewrite getitem_offset. by rewrite list_lookup_middle.
Qed.

(** ** The loops traverse the rest of the text *)

Lemma braced_loop_scan (s pre : str) (depth : nat) (acc : str) :
  braced_loop (pre ++ s) (length s) (Z.of_nat depth) acc
  = Return (scan_braces s depth acc).
Proof.
  revert pre depth acc. induction s as [|c s IH]; intros pre depth acc.
  - reflexivity.
  - cbn [length braced_loop scan_braces].
    replace (len (pre ++ c :: s) - Z.of_nat (S (length s))) with (len pre)
      by (rewrite len_app; unfold len; cbn [length]; lia).
    rewrite getitem_middle.
    replace (pre ++ c :: s) with ((pre ++ [c]) ++ s) by (by rewrite <- app_assoc).
    destruct (Ascii.eqb c lbrace).
    + replace (Z.of_nat depth + 1) with (Z.of_nat (S depth)) by lia. apply IH.
    + destruct (Ascii.eqb c rbrace); [|apply IH].
      destruct depth as [|depth]; [reflexivity|].
      destruct (Z.eqb_spec (Z.of_nat (S depth)) 0); [lia|].
      replace (Z.of_nat (S depth) - 1) with (Z.of_nat depth) by lia. apply IH.
Qed.

Lemma quoted_loop_scan (s pre : str) (before : ascii) (acc : str) :
  quoted_loop ((pre ++ [before]) ++ s) (length s) acc
  = Return (scan_quote before s acc).
Proof.
  revert pre before acc. induction s as [|c s IH]; intros pre before acc.
  - reflexivity.
  - cbn [length quoted_loop scan_quote].
    replace (len ((pre ++ [before]) ++ c :: s) - Z.of_nat (S (length s)))
      with (len (pre ++ [before]))
      by (rewrite (len_app _ (c :: s)); unfold len; cbn [length]; lia).
    rewrite getitem_middle.
    replace (len (pre ++ [before]) - 1) with (len pre)
      by (rewrite len_app; unfold len; cbn [length]; lia).
    rewrite <- (app_assoc pre [before] (c :: s)). cbn [app].
    rewrite getitem_middle.
    replace (pre ++ before :: c :: s) with (((pre ++ [before]) ++ [c]) ++ s)
      by (by rewrite <- !app_assoc).
    destruct (Ascii.eqb c dquote); cbn [andb].
    + destruct (Ascii.eqb before backslash); cbn [negb]; [apply IH|reflexivity].
    + apply IH.
Qed.

(** The scanners on a text split at the start index. *)
Lemma extract_braced_value_at (pre : str) (c : ascii) (tail : str) :
  _extract_braced_value (pre ++ c :: tail) (len pre)
  = if Ascii.eqb c lbrace then Return (scan_braces tail 0 []) else Return None.
Proof.
  unfold _extract_braced_value.
  destruct (Z.leb_spec (len (pre ++ c :: tail)) (len pre)) as [H|_].
  { rewrite len_app in H. unfold len in H. cbn [length] in H. lia. }
  rewrite getitem_middle. destruct (Ascii.eqb c lbrace); cbn [negb]; [|reflexivity].
  replace (Z.to_nat (len (pre ++ c :: tail) - (len pre + 1))) with (length tail)
    by (rewrite len_app; unfold len; cbn [length]; lia).
  replace (pre ++ c :: tail) with ((pre ++ [c]) ++ tail) by (by rewrite <- app_assoc).
  apply (braced_loop_scan tail (pre ++ [c]) 0 []).
Qed.

Lemma extract_quoted_value_at (pre : str) (c : ascii) (tail : str) :
  _extract_quoted_value (pre ++ c :: tail) (len pre)
  = if Ascii.eqb c dquote then Return (scan_quote c tail []) else Return None.
Proof.
  unfold _extract_quoted_value.
  destruct (Z.leb_spec (len (pre ++ c :: tail)) (len pre)) as [H|_].
  { rewrite len_app in H. unfold len in H. cbn [length] in H. lia. }
  rewrite getitem_middle. destruct (Ascii.eqb c dquote); cbn [negb]; [|reflexivity].
  replace (Z.to_nat (len (pre ++ c :: tail) - (len pre + 1))) with (length tail)
    by (rewrite len_app; unfold len; cbn [length]; lia).
  replace (pre ++ c :: tail) with ((pre ++ [c]) ++ tail) by (by rewrite <- app_assoc).
  apply quoted_loop_scan.
Qed.

(** A text is split at any of its positions. *)
Lemma split_at (text : str) (i : nat) (c : ascii) :
  text !! i = Some c ->
  text = take i text ++ c :: drop (S i) text /\ length (take i text) = i.
Proof.
  intros H. split.
  - by rewrite take_drop_middle.
  - apply length_take_le. apply lookup_lt_Some in H. lia.
Qed.

(** ** Brace mode *)

Lemma scan_braces_balanced (b : str) :
  balanced b ->
  forall rest d acc, scan_braces (b ++ rest) d acc = scan_braces rest d (acc ++ b).
Proof.
  induction 1 as [|c s Hl Hr _ IH|s1 s2 _ IH1 _ IH2]; intros rest d acc.
  - by rewrite app_nil_r.
  - cbn [app scan_braces].
    apply Ascii.eqb_neq in Hl, Hr. rewrite Hl, Hr, IH.
    by rewrite <- app_assoc.
  - cbn [app scan_braces]. change (Ascii.eqb lbrace lbrace) with true. cbn match.
    rewrite <- app_assoc, IH1. cbn [app scan_braces].
    change (Ascii.eqb rbrace lbrace) with false.
    change (Ascii.eqb rbrace rbrace) with true. cbn match.
    rewrite IH2. f_equal. rewrite <- !app_assoc. reflexivity.
Qed.

Lemma closes_char (d : nat) (c : ascii) (body : str) :
  c <> lbrace -> c <> rbrace -> closes d body -> closes d (c :: body).
Proof.
  intros Hl Hr. destruct d as [|d]; cbn [closes].
  - by apply balanced_char.
  - intros (b & body' & -> & Hb & Hc).
    exists (c :: b), body'. split; [reflexivity|]. split; [|done].
    by apply balanced_char.
Qed.

Lemma closes_group (d : nat) (b body : str) :
  balanced b -> closes d body -> closes d (lbrace :: b ++ rbrace :: body).
Proof.
  intros Hb. destruct d as [|d]; cbn [closes].
  - by apply balanced_group.
  - intros (b' & body' & -> & Hb' & Hc).
    exists (lbrace :: b ++ rbrace :: b'), body'. split.
    + cbn [app]. by rewrite <- app_assoc.
    + split; [|done]. by apply balanced_group.
Qed.

Lemma scan_braces_closes (s : str) :
  forall d acc v,
    scan_braces s d acc = Some v ->
    exists body rest,
      s = body ++ rbrace :: rest /\ closes d body /\ v = strip (acc ++ body).
Proof.
  induction s as [|c s IH]; intros d acc v; cbn [scan_braces]; [done|].
  destruct (Ascii.eqb_spec c lbrace) as [->|Hl].
  - intros H. apply IH in H as (body & rest & -> & Hc & ->).
    cbn [closes] in Hc. destruct Hc as (b & body' & -> & Hb & Hc).
    exists (lbrace :: b ++ rbrace :: body'), rest. split; [|split].
    + cbn [app]. by rewrite <- !app_assoc.
    + by apply closes_group.
    + by rewrite <- app_assoc.
  - destruct (Ascii.eqb_spec c rbrace) as [->|Hr].
    + destruct d as [|d].
      * intros [= <-]. exists [], s. split; [done|]. split; [constructor|].
        by rewrite app_nil_r.
      * intros H. apply IH in H as (body & rest & -> & Hc & ->).
        exists (rbrace :: body), rest. split; [done|]. split.
        -- exists [], body. split; [done|]. split; [constructor|done].
        -- by rewrite <- app_assoc.
    + intros H. apply IH in H as (body & rest & -> & Hc & ->).
      exists (c :: body), rest. split; [done|]. split.
      * by apply closes_char.
      * by rewrite <- app_assoc.
Qed.

(** C1. Brace mode: when [text[start_index]] is an opening brace, the
    scanner returns the text up to the closing brace that matches it, that
    is the balanced text [body] before it, inner braces kept, the outer
    braces left out, whitespace trimmed at both ends; and when no closing
    brace matches the opening one before the text ends, it returns [None]. *)
Theorem extract_braced_value_spec (text : str) (start_index : nat) :
  text !! start_index = Some lbrace ->
  (forall body rest,
      balanced body ->
      drop (S start_index) text = body ++ rbrace :: rest ->
      _extract_braced_value text (Z.of_nat start_index)
      = Return (Some (strip body)))
  /\ ((forall body rest,
         balanced body -> drop (S start_index) text <> body ++ rbrace :: rest) ->
      _extract_braced_value text (Z.of_nat start_index) = Return None).
Proof.
  intros Hat. destruct (split_at _ _ _ Hat) as [Htext Hlen].
  assert (Hrun : _extract_braced_value text (Z.of_nat start_index)
                 = Return (scan_braces (drop (S start_index) text) 0 [])).
  { pose proof (extract_braced_value_at (take start_index text) lbrace
                  (drop (S start_index) text)) as H.
    rewrite <- Htext in H. unfold len in H. by rewrite Hlen in H. }
  rewrite Hrun. split.
  - intros body rest Hb ->.
    rewrite (scan_braces_balanced body Hb). reflexivity.
  - intros Hnone.
    destruct (scan_braces (drop (S start_index) text) 0 []) as [v|] eqn:E; [|done].
    apply scan_braces_closes in E as (body & rest & E & Hc & _).
    cbn [closes] in Hc. by destruct (Hnone body rest Hc).
Qed.

Lemma extract_braced_value_spec_witness :
  _extract_braced_value (chars "t = { The {DBLP} Story } x") 4
  = Return (Some (chars "The {DBLP} Story"))
  /\ _extract_braced_value (chars "{") 0 = Return None.
Proof.
  split.
  - apply (proj1 (extract_braced_value_spec
                    (chars "t = { The {DBLP} Story } x") 4 eq_refl)
             (chars " The {DBLP} Story ") (chars " x")); [|reflexivity].
    do 5 (apply balanced_char; [discriminate|discriminate|]).
    apply (balanced_group (chars "DBLP") (chars " Story ")).
    + repeat (apply balanced_char; [discriminate|discriminate|]). constructor.
    + repeat (apply balanced_char; [discriminate|discriminate|]). constructor.
  - apply (proj2 (extract_braced_value_spec (chars "{") 0 eq_refl)).
    intros body rest _. cbn. by destruct body.
Defined.

(** ** Quote mode *)

Lemma scan_quote_first (s : str) :
  forall before acc m,
    unescaped_at before s m ->
    (forall k, (k < m)%nat -> ~ unescaped_at before s k) ->
    scan_quote before s acc = Some (strip (acc ++ take m s)).
Proof.
  induction s as [|c s IH]; intros before acc m [Hq Hb] Hfirst.
  - by rewrite lookup_nil in Hq.
  - cbn [scan_quote]. destruct m as [|m].
    + cbn in Hq, Hb. injection Hq as ->.
      change (Ascii.eqb dquote dquote) with true.
      destruct (Ascii.eqb_spec before backslash) as [->|_]; [done|].
      cbn. by rewrite app_nil_r.
    + assert (Ascii.eqb c dquote && negb (Ascii.eqb before backslash) = false) as ->.
      { apply not_true_is_false. intros [Hc Hn]%andb_true_iff.
        apply Ascii.eqb_eq in Hc as ->. apply negb_true_iff, Ascii.eqb_neq in Hn.
        apply (Hfirst 0%nat); [lia|]. split; cbn; congruence. }
      rewrite (IH c (acc ++ [c]) m).
      * cbn [take]. by rewrite <- app_assoc.
      * split; [exact Hq|exact Hb].
      * intros k Hk [Hq' Hb']. apply (Hfirst (S k)); [lia|]. by split.
Qed.

Lemma scan_quote_none (s : str) :
  forall before acc,
    (forall k, ~ unescaped_at before s k) -> scan_quote before s acc = None.
Proof.
  induction s as [|c s IH]; intros before acc Hnone; [done|].
  cbn [scan_quote].
  assert (Ascii.eqb c dquote && negb (Ascii.eqb before backslash) = false) as ->.
  { apply not_true_is_false. intros [Hc Hn]%andb_true_iff.
    apply Ascii.eqb_eq in Hc as ->. apply negb_true_iff, Ascii.eqb_neq in Hn.
    apply (Hnone 0%nat). split; cbn; congruence. }
  apply IH. intros k [Hq Hb]. apply (Hnone (S k)). by split.
Qed.

(** Positions of the text after the opening quote and positions of the
    whole text. *)
Lemma unescaped_at_drop (text : str) (i m : nat) (c : ascii) :
  text !! i = Some c ->
  unescaped_at c (drop (S i) text) m <-> unescaped_quote text (S i + m).
Proof.
  intros Hat. unfold unescaped_at, unescaped_quote.
  rewrite lookup_drop.
  replace (S i + m - 1)%nat with (i + m)%nat by lia.
  assert ((c :: drop (S i) text) !! m = text !! (i + m)%nat) as ->; [|done].
  destruct m as [|m].
  - rewrite Nat.add_0_r. by rewrite Hat.
  - change ((c :: drop (S i) text) !! S m) with (drop (S i) text !! m).
    rewrite lookup_drop. f_equal. lia.
Qed.

Lemma extract_quoted_value_scan (text : str) (i : nat) :
  text !! i = Some dquote ->
  _extract_quoted_value text (Z.of_nat i)
  = Return (scan_quote dquote (drop (S i) text) []).
Proof.
  intros Hat. destruct (split_at _ _ _ Hat) as [Htext Hlen].
  pose proof (extract_quoted_value_at (take i text) dquote (drop (S i) text)) as H.
  rewrite <- Htext in H. unfold len in H. by rewrite Hlen in H.
Qed.

(** C2, as the code has it. Quote mode: when [text[i]] is a quote and [j]
    is the first later position of a quote that no backslash precedes, the
    scanner returns the text between the two, trimmed of whitespace at both
    ends; quotes that follow a backslash lie inside that text and do not
    end the scan. When no later quote is free of a backslash, it returns
    [None]. *)
Theorem extract_quoted_value_spec (text : str) (i : nat) :
  text !! i = Some dquote ->
  (forall j,
      (i < j)%nat ->
      unescaped_quote text j ->
      (forall k, (i < k < j)%nat -> ~ unescaped_quote text k) ->
      _extract_quoted_value text (Z.of_nat i)
      = Return (Some (strip (between text i j))))
  /\ ((forall k, (i < k)%nat -> ~ unescaped_quote text k) ->
      _extract_quoted_value text (Z.of_nat i) = Return None).
Proof.
  intros Hat. rewrite (extract_quoted_value_scan _ _ Hat). split.
  - intros j Hij Hj Hfirst. f_equal.
    replace j with (S i + (j - i - 1))%nat in Hj by lia.
    apply (unescaped_at_drop _ _ _ _ Hat) in Hj.
    rewrite (scan_quote_first _ dquote [] (j - i - 1)%nat Hj); [done|].
    intros k Hk Hk'%(unescaped_at_drop _ _ _ _ Hat).
    apply (Hfirst (S i + k)%nat); [lia|done].
  - intros Hnone. f_equal. apply scan_quote_none.
    intros k Hk%(unescaped_at_drop _ _ _ _ Hat).
    apply (Hnone (S i + k)%nat); [lia|done].
Qed.

Lemma extract_quoted_value_spec_witness :
  _extract_quoted_value escaped_sample 4
  = Return (Some (chars "a" ++ backslash :: dquote :: chars "b"))
  /\ _extract_quoted_value (dquote :: chars "a") 0 = Return None.
Proof.
  split.
  - apply (proj1 (extract_quoted_value_spec escaped_sample 4 eq_refl) 9%nat).
    + lia.
    + split; [reflexivity|discriminate].
    + intros k Hk [Hq Hb].
      assert (k = 5 \/ k = 6 \/ k = 7 \/ k = 8)%nat as [ -> | [ -> | [ -> | -> ] ] ] by lia;
        try discriminate Hq.
      by apply Hb.
  - apply (proj2 (extract_quoted_value_spec (dquote :: chars "a") 0 eq_refl)).
    intros k Hk [Hq _].
    destruct k as [|[|k]]; [lia|discriminate Hq|discriminate Hq].
Defined.

(** C2, read to the letter, fails: a quoted value made of a space, an a
    and a space comes back as the one letter, not as the accumulated
    text. *)
Lemma quoted_returns_accumulated_fails : ~ quoted_returns_accumulated.
Proof.
  intros H.
  assert (_extract_quoted_value (dquote :: chars " a " ++ [dquote]) (Z.of_nat 0)
          = Return (Some (between (dquote :: chars " a " ++ [dquote]) 0 4))) as E.
  { apply H; [reflexivity|lia|split; [reflexivity|discriminate]|].
    intros k Hk [Hq _].
    assert (k = 1 \/ k = 2 \/ k = 3)%nat as [ -> | [ -> | -> ] ] by lia;
      discriminate Hq. }
  vm_compute in E. discriminate E.
Qed.

(** ** Field lookup *)

Lemma match_name_lower (n1 : str) :
  forall n2 s, lower n1 = lower n2 -> match_name n1 s = match_name n2 s.
Proof.
  induction n1 as [|p1 n1 IH]; intros [|p2 n2] s H; try done.
  injection H as Hp Hn. cbn [match_name].
  destruct s as [|c s]; [done|]. rewrite Hp. by rewrite (IH n2 s Hn).
Qed.

Lemma match_name_app (name : str) :
  forall nm s, lower nm = lower name -> match_name name (nm ++ s) = Some s.
Proof.
  induction name as [|p name IH]; intros [|c nm] s H; try done.
  injection H as Hp Hn. cbn [app match_name].
  rewrite Hp, (proj2 (Ascii.eqb_eq _ _) eq_refl). by apply IH.
Qed.

Lemma match_name_inv (name : str) :
  forall s s1,
    match_name name s = Some s1 ->
    exists nm, s = nm ++ s1 /\ lower nm = lower name.
Proof.
  induction name as [|p name IH]; intros s s1; cbn [match_name].
  - intros [= ->]. by exists [].
  - destruct s as [|c s]; [done|].
    destruct (Ascii.eqb_spec (lower_char c) (lower_char p)) as [Hp|_]; [|done].
    intros (nm & -> & Hn)%IH. exists (c :: nm). split; [done|].
    unfold lower in *. cbn [map]. congruence.
Qed.

Lemma lstrip_app (ws s : str) (c : ascii) :
  Forall (fun c => isspace c = true) ws ->
  isspace c = false ->
  lstrip (ws ++ c :: s) = c :: s.
Proof.
  intros Hws Hc. induction Hws as [|w ws Hw _ IH]; cbn [app lstrip].
  - by rewrite Hc.
  - by rewrite Hw.
Qed.

Lemma lstrip_inv (s : str) (c : ascii) (s' : str) :
  lstrip s = c :: s' ->
  exists ws, s = ws ++ c :: s' /\ Forall (fun c => isspace c = true) ws.
Proof.
  induction s as [|a s IH]; cbn [lstrip]; [done|].
  destruct (isspace a) eqn:Ha.
  - intros (ws & -> & Hws)%IH. exists (a :: ws). split; [done|by constructor].
  - intros [= -> ->]. by exists [].
Qed.

(** A word of the pattern's language at the head of the text is the match
    found there, and the other way round. *)
Lemma match_here_pattern (name : str) (d : ascii) (seg rest : str) :
  field_pattern name d seg -> match_here name (seg ++ rest) = Some (d, rest).
Proof.
  intros (nm & ws1 & ws2 & -> & Hn & H1 & H2 & Hd). unfold match_here.
  rewrite <- !app_assoc, (match_name_app name nm _ Hn).
  cbn [app]. rewrite <- app_assoc. rewrite (lstrip_app ws1 _ equals H1 eq_refl).
  change (Ascii.eqb equals equals) with true. cbn match. cbn [app].
  rewrite (lstrip_app ws2 rest d H2); [|by destruct Hd as [->| ->]].
  by destruct Hd as [->| ->].
Qed.

Lemma match_here_inv (name s : str) (d : ascii) (rest : str) :
  match_here name s = Some (d, rest) ->
  exists seg, s = seg ++ rest /\ field_pattern name d seg.
Proof.
  unfold match_here.
  destruct (match_name name s) as [s1|] eqn:E1; [|done].
  apply match_name_inv in E1 as (nm & -> & Hn).
  destruct (lstrip s1) as [|c s2] eqn:E2; [done|].
  apply lstrip_inv in E2 as (ws1 & -> & H1).
  destruct (Ascii.eqb_spec c equals) as [->|_]; [|done].
  destruct (lstrip s2) as [|d' s3] eqn:E3; [done|].
  apply lstrip_inv in E3 as (ws2 & -> & H2).
  destruct (Ascii.eqb d' lbrace || Ascii.eqb d' dquote) eqn:Ed; [|done].
  intros [= -> ->]. exists (nm ++ ws1 ++ equals :: ws2 ++ [d]). split.
  - rewrite <- !app_assoc. cbn [app]. by rewrite <- !app_assoc.
  - exists nm, ws1, ws2. repeat split; try done.
    apply orb_true_iff in Ed as [Ed|Ed]; apply Ascii.eqb_eq in Ed; auto.
Qed.

Lemma search_from_first (name : str) (d : ascii) (seg rest : str) (pre : str) :
  field_pattern name d seg ->
  (forall pre' seg' rest' d',
      pre' ++ seg' ++ rest' = pre ++ seg ++ rest ->
      field_pattern name d' seg' -> (length pre <= length pre')%nat) ->
  search_from name (pre ++ seg ++ rest) = Some (d, rest).
Proof.
  intros Hseg. induction pre as [|c pre IH]; intros Hfirst.
  - cbn [app]. pose proof (match_here_pattern name d seg rest Hseg) as E.
    destruct (seg ++ rest); cbn [search_from]; by rewrite E.
  - cbn [app search_from].
    destruct (match_here name (c :: pre ++ seg ++ rest)) as [[d' rest']|] eqn:E.
    + apply match_here_inv in E as (seg' & E' & Hseg').
      specialize (Hfirst [] seg' rest' d' (eq_sym E') Hseg'). cbn in Hfirst. lia.
    + apply IH. intros pre' seg' rest' d' E' Hseg'.
      specialize (Hfirst (c :: pre') seg' rest' d').
      cbn in Hfirst. rewrite E' in Hfirst. specialize (Hfirst eq_refl Hseg'). lia.
Qed.

Lemma search_from_inv (name s : str) (d : ascii) (rest : str) :
  search_from name s = Some (d, rest) ->
  exists pre, s = pre ++ d :: rest.
Proof.
  induction s as [|c s IH].
  - cbn. destruct (match_here name []) as [r|] eqn:E; [|done].
    intros [= ->]. apply match_here_inv in E as (seg & E' & nm & ws1 & ws2 & -> & _).
    exists (nm ++ ws1 ++ equals :: ws2). rewrite E'.
    rewrite <- !app_assoc. cbn [app]. by rewrite <- !app_assoc.
  - cbn [search_from]. destruct (match_here name (c :: s)) as [r|] eqn:E.
    + intros [= ->]. apply match_here_inv in E as (seg & E' & nm & ws1 & ws2 & -> & _).
      exists (nm ++ ws1 ++ equals :: ws2). rewrite E'.
      rewrite <- !app_assoc. cbn [app]. by rewrite <- !app_assoc.
    + intros (pre & ->)%IH. by exists (c :: pre).
Qed.

(** The extractor calls the scanners at a position of the text, so it
    never raises. *)
Lemma extract_field_value_returns (bibtex field_name : str) :
  exists value, extract_field_value bibtex field_name = Return value.
Proof.
  unfold extract_field_value, pattern_search.
  destruct (search_from field_name bibtex) as [[d rest]|] eqn:E; [|by eexists].
  apply search_from_inv in E as (pre & ->). cbn [group1 match_end].
  replace (len (pre ++ d :: rest) - len rest - 1) with (len pre)
    by (rewrite len_app; unfold len; cbn [length]; lia).
  rewrite extract_braced_value_at, extract_quoted_value_at.
  destruct (Ascii.eqb d lbrace), (Ascii.eqb d dquote); by eexists.
Qed.

(** C3. Field lookup ignores letter case: two field names with the same
    lower-case form, such as Year and year, give the same result on every
    text. And the lookup uses the first match only: where a word of the
    pattern's language (name, whitespace, [=], whitespace, delimiter) lies
    in the text and none starts before it, the result is that of the
    scanner at this word's delimiter. *)
Theorem extract_field_value_case_first :
  (forall bibtex name1 name2,
      lower name1 = lower name2 ->
      extract_field_value bibtex name1 = extract_field_value bibtex name2)
  /\ (forall bibtex, extract_field_value bibtex (chars "Year")
                     = extract_field_value bibtex (chars "year"))
  /\ (forall name d pre seg rest,
         field_pattern name d seg ->
         (forall pre' seg' rest' d',
             pre' ++ seg' ++ rest' = pre ++ seg ++ rest ->
             field_pattern name d' seg' -> (length pre <= length pre')%nat) ->
         extract_field_value (pre ++ seg ++ rest) name
         = scan_value d (pre ++ seg ++ rest) (len pre + len seg - 1)).
Proof.
  assert (Hcase : forall bibtex name1 name2,
             lower name1 = lower name2 ->
             extract_field_value bibtex name1 = extract_field_value bibtex name2).
  { intros bibtex name1 name2 H. unfold extract_field_value, pattern_search.
    assert (forall s, search_from name1 s = search_from name2 s) as ->; [|done].
    intros s. induction s as [|c s IH]; cbn [search_from]; unfold match_here;
      rewrite (match_name_lower name1 name2 _ H); [done|by rewrite IH]. }
  split; [exact Hcase|]. split; [intros; by apply Hcase|].
  intros name d pre seg rest Hseg Hfirst.
  unfold extract_field_value, pattern_search.
  rewrite (search_from_first name d seg rest pre Hseg Hfirst).
  cbn [group1 match_end]. unfold scan_value.
  replace (len (pre ++ seg ++ rest) - len rest - 1) with (len pre + len seg - 1)
    by (rewrite !len_app; lia).
  reflexivity.
Qed.

Lemma extract_field_value_case_first_witness :
  extract_field_value (chars "Year = {2020}, year = {1999}") (chars "YEAR")
  = extract_field_value (chars "Year = {2020}, year = {1999}") (chars "year")
  /\ extract_field_value (chars "Year = {2020}, year = {1999}") (chars "year")
     = scan_value lbrace (chars "Year = {2020}, year = {1999}") 7.
Proof.
  split.
  - apply (proj1 extract_field_value_case_first). reflexivity.
  - apply (proj2 (proj2 extract_field_value_case_first)
             (chars "year") lbrace [] (chars "Year = {")
             (chars "2020}, year = {1999}")).
    + exists (chars "Year"), [space], [space].
      repeat split; [by repeat constructor..|by left].
    + intros pre' seg' rest' d' _ _. cbn. lia.
Defined.

Example extract_first_year :
  extract_field_value (chars "Year = {2020}, year = {1999}") (chars "year")
  = Return (Some (chars "2020")).
Proof. reflexivity. Qed.

(** ** Crossref merging *)

Lemma dict_get_insert_ne (fields : gmap str (option str)) (k name : str)
    (v : option str) :
  k <> name -> dict_get (<[k := v]> fields) name = dict_get fields name.
Proof. intros H. unfold dict_get. by rewrite lookup_insert_ne. Qed.

(** The loop leaves alone every name outside its list and every name whose
    value is present. *)
Lemma merge_loop_frame (names : list str) (crossref_bibtex : str) :
  forall fields fields' name,
    merge_loop names crossref_bibtex fields = Return fields' ->
    name ∉ names \/ truthy (dict_get fields name) = true ->
    fields' !! name = fields !! name.
Proof.
  induction names as [|k names IH]; intros fields fields' name; cbn [merge_loop].
  - by intros [= ->].
  - destruct (truthy (dict_get fields k)) eqn:Hk; cbn [negb].
    + intros H Hname. apply (IH _ _ _ H).
      destruct Hname as [Hname|Hname]; [left|by right].
      by apply not_elem_of_cons in Hname as [_ ?].
    + destruct (extract_field_value crossref_bibtex k) as [value|e]; [|done].
      intros H Hname.
      assert (k <> name) as Hne.
      { intros ->. destruct Hname as [Hname|Hname]; [|congruence].
        apply Hname. by left. }
      rewrite (IH _ _ name H).
      * by rewrite lookup_insert_ne.
      * destruct Hname as [Hname|Hname]; [left|right].
        -- by apply not_elem_of_cons in Hname as [_ ?].
        -- by rewrite dict_get_insert_ne.
Qed.

(** A name of the list whose value is absent gets what the extractor finds
    in the crossref record. *)
Lemma merge_loop_fill (names : list str) (crossref_bibtex : str) :
  forall fields fields' name,
    NoDup names ->
    merge_loop names crossref_bibtex fields = Return fields' ->
    name ∈ names ->
    truthy (dict_get fields name) = false ->
    exists value,
      extract_field_value crossref_bibtex name = Return value
      /\ fields' !! name = Some value.
Proof.
  induction names as [|k names IH]; intros fields fields' name Hnd;
    cbn [merge_loop]; [by intros _ ?%elem_of_nil|].
  apply NoDup_cons in Hnd as [Hk Hnd].
  intros H [->|Hin]%elem_of_cons Hname.
  - rewrite Hname in H. cbn [negb] in H.
    destruct (extract_field_value crossref_bibtex k) as [value|e]; [|done].
    exists value. split; [done|].
    rewrite (merge_loop_frame _ _ _ _ k H); [|by left].
    by rewrite lookup_insert_eq.
  - assert (k <> name) as Hne by (by intros ->).
    destruct (truthy (dict_get fields k)); cbn [negb] in H.
    + by apply (IH fields).
    + destruct (extract_field_value crossref_bibtex k) as [value|e]; [|done].
      apply (IH _ _ _ Hnd H Hin). by rewrite dict_get_insert_ne.
Qed.

Lemma merge_loop_returns (names : list str) (crossref_bibtex : str) :
  forall fields, exists fields', merge_loop names crossref_bibtex fields = Return fields'.
Proof.
  induction names as [|k names IH]; intros fields; cbn [merge_loop]; [by eexists|].
  destruct (negb (truthy (dict_get fields k))); [|apply IH].
  destruct (extract_field_value_returns crossref_bibtex k) as [value ->]. apply IH.
Qed.

(** C4. Crossref enrichment is best-effort: when the retrieval of the
    record that the crossref field names fails, with whatever exception,
    the fields come back as they were; and no call of
    [merge_crossref_fields] ever raises. *)
Theorem merge_crossref_fields_swallows (http_get : str -> outcome str)
    (bibtex : str) (fields : gmap str (option str)) :
  (forall crossref e,
      extract_field_value bibtex (chars "crossref") = Return (Some crossref) ->
      fetch_bibtex_entry http_get crossref = Raise e ->
      merge_crossref_fields http_get bibtex fields = Return fields)
  /\ (exists fields', merge_crossref_fields http_get bibtex fields = Return fields').
Proof.
  unfold merge_crossref_fields. split.
  - intros crossref e Hx Hfetch. rewrite Hx.
    destruct (truthy _ || truthy _); [done|].
    destruct crossref as [|c key]; [done|]. by rewrite Hfetch.
  - destruct (truthy _ || truthy _); [by eexists|].
    destruct (extract_field_value_returns bibtex (chars "crossref")) as [x ->].
    destruct x as [[|c key]|]; [by eexists| |by eexists].
    destruct (fetch_bibtex_entry http_get (c :: key)); [|by eexists].
    apply merge_loop_returns.
Qed.

(** C5. Crossref enrichment never overwrites: with a booktitle or a series
    present the fields come back unchanged; and whenever an entry of the
    result differs from the input, the crossref record was retrieved, the
    entry is booktitle, series or year, its value was absent before, and it
    now holds what the extractor finds for it in the crossref record. So
    every entry that was present keeps its value. *)
Theorem merge_crossref_fields_frame (http_get : str -> outcome str)
    (bibtex : str) (fields : gmap str (option str)) :
  (present fields (chars "booktitle") = true \/ present fields (chars "series") = true ->
   merge_crossref_fields http_get bibtex fields = Return fields)
  /\ (forall fields' name,
         merge_crossref_fields http_get bibtex fields = Return fields' ->
         present fields name = true ->
         fields' !! name = fields !! name)
  /\ (forall fields' name,
         merge_crossref_fields http_get bibtex fields = Return fields' ->
         fields' !! name <> fields !! name ->
         name ∈ [chars "booktitle"; chars "series"; chars "year"]
         /\ present fields name = false
         /\ exists crossref crossref_bibtex value,
              extract_field_value bibtex (chars "crossref") = Return (Some crossref)
              /\ fetch_bibtex_entry http_get crossref = Return crossref_bibtex
              /\ extract_field_value crossref_bibtex name = Return value
              /\ fields' !! name = Some value).
Proof.
  unfold merge_crossref_fields, present. split; [|split].
  - intros [-> | ->]; [done|]. by rewrite orb_true_r.
  - intros fields' name H Hname.
    destruct (truthy _ || truthy _); [by injection H as <-|].
    destruct (extract_field_value bibtex (chars "crossref")) as [x|]; [|done].
    destruct x as [[|c key]|]; try by injection H as <-.
    destruct (fetch_bibtex_entry http_get (c :: key)); [|by injection H as <-].
    apply (merge_loop_frame _ _ _ _ _ H). by right.
  - intros fields' name H Hdiff.
    destruct (truthy _ || truthy _); [by injection H as <-|].
    destruct (extract_field_value bibtex (chars "crossref")) as [x|] eqn:Hx; [|done].
    destruct x as [[|c key]|]; try by injection H as <-.
    destruct (fetch_bibtex_entry http_get (c :: key)) as [cb|] eqn:Hcb;
      [|by injection H as <-].
    destruct (decide (name ∈ [chars "booktitle"; chars "series"; chars "year"]))
      as [Hin|Hout].
    2: { destruct Hdiff. apply (merge_loop_frame _ _ _ _ _ H). by left. }
    destruct (truthy (dict_get fields name)) eqn:Hname.
    { destruct Hdiff. apply (merge_loop_frame _ _ _ _ _ H). by right. }
    split; [done|]. split; [done|].
    assert (NoDup [chars "booktitle"; chars "series"; chars "year"]) as Hnd
      by (apply (bool_decide_unpack _); vm_compute; exact I).
    destruct (merge_loop_fill _ _ _ _ name Hnd H Hin Hname) as (value & Hv & Hl).
    by exists (c :: key), cb, value.
Qed.

Lemma merge_crossref_fields_swallows_witness :
  merge_crossref_fields http_get_failing paper_sample paper_fields
  = Return paper_fields.
Proof.
  apply (proj1 (merge_crossref_fields_swallows http_get_failing paper_sample
                  paper_fields)
           (chars "conf/x/2020") (RetrievalError "HTTP Error 404: Not Found"));
    reflexivity.
Defined.

Example merge_fills_booktitle :
  merge_crossref_fields http_get_proceedings paper_sample paper_fields
  = Return paper_fields_merged.
Proof. vm_compute. reflexivity. Qed.

Lemma merge_crossref_fields_frame_witness :
  merge_crossref_fields http_get_proceedings paper_sample paper_fields_with_series
  = Return paper_fields_with_series
  /\ paper_fields_merged !! chars "year" = paper_fields !! chars "year"
  /\ present paper_fields (chars "booktitle") = false.
Proof.
  pose proof (merge_crossref_fields_frame http_get_proceedings paper_sample
                paper_fields_with_series) as [Hnoop _].
  pose proof (merge_crossref_fields_frame http_get_proceedings paper_sample
                paper_fields) as (_ & Hkeep & Hfill).
  split; [|split].
  - apply Hnoop. right. reflexivity.
  - apply Hkeep; [exact merge_fills_booktitle|reflexivity].
  - apply (Hfill paper_fields_merged (chars "booktitle") merge_fills_booktitle).
    vm_compute. discriminate.
Defined.

(** ** Rendering *)

Lemma max_len_FIELD_ORDER : max_len FIELD_ORDER = 9.
Proof. reflexivity. Qed.

Lemma ljust_FIELD_ORDER (name : str) :
  name ∈ FIELD_ORDER ->
  ljust name 9 = name ++ replicate (9 - length name)%nat space
  /\ length (ljust name 9) = 9%nat.
Proof.
  unfold FIELD_ORDER. rewrite !elem_of_cons, elem_of_nil.
  intros H. repeat destruct H as [->|H]; try done.
Qed.

(** The loop adds the lines of the present names, in the order of the
    list it runs over. *)
Lemma render_loop_lines (names : list str) (fields : gmap str (option str)) :
  Forall (fun name => name ∈ FIELD_ORDER) names ->
  forall lines,
    render_loop names 9 fields lines
    = lines ++ map (assignment_line fields) (filter (fun name => present fields name = true) names).
Proof.
  induction 1 as [|name names Hname _ IH]; intros lines; cbn [render_loop].
  - by rewrite app_nil_r.
  - rewrite filter_cons.
    destruct (decide (present fields name = true)) as [Hp|Hp];
      unfold present in Hp;
      destruct (dict_get fields name) as [[|c value]|] eqn:E;
      cbn [truthy] in Hp; try done; try apply IH.
    rewrite IH. cbn [map]. rewrite <- app_assoc. cbn [app]. do 2 f_equal.
    destruct (ljust_FIELD_ORDER name Hname) as [-> _].
    unfold assignment_line. rewrite E. cbn [default].
    by rewrite <- !app_assoc.
Qed.

Lemma assignment_prefix_differs (name name' : str) :
  name ∈ FIELD_ORDER -> name' ∈ FIELD_ORDER -> name <> name' ->
  assignment_prefix name <> assignment_prefix name'.
Proof.
  unfold FIELD_ORDER. rewrite !elem_of_cons, !elem_of_nil.
  intros H H'.
  repeat destruct H as [->|H]; try done;
    repeat destruct H' as [->|H']; try done; intros _; discriminate.
Qed.

Lemma assignment_line_prefix (fields : gmap str (option str)) (name : str) :
  name ∈ FIELD_ORDER ->
  exists value, assignment_line fields name = assignment_prefix name ++ value.
Proof.
  intros Hname. unfold assignment_line, assignment_prefix.
  destruct (ljust_FIELD_ORDER name Hname) as [-> _].
  eexists. rewrite <- !app_assoc. reflexivity.
Qed.

Lemma assignment_prefix_length (name : str) :
  name ∈ FIELD_ORDER -> length (assignment_prefix name) = 15%nat.
Proof.
  unfold FIELD_ORDER. rewrite !elem_of_cons, elem_of_nil.
  intros H. repeat destruct H as [->|H]; done.
Qed.

(** ** Journal names *)

Lemma JOURNAL_EXPANSIONS_values (key full : str) :
  JOURNAL_EXPANSIONS !! key = Some full ->
  full = chars "Communications of the ACM" \/ full = chars "Journal of Cryptology".
Proof.
  unfold JOURNAL_EXPANSIONS. rewrite !lookup_insert, lookup_empty.
  repeat case_decide; intros [= <-]; auto.
Qed.

Example expand_commun_acm :
  expand_journal_name (Some (chars "{Commun.} {ACM}"))
  = Some (chars "Communications of the ACM").
Proof. vm_compute. reflexivity. Qed.

(** C9. Journal-name expansion is idempotent on every value, [None] and
    the empty string included; and when the normalised name is no key of
    the table, the value comes back as it was given. *)
Theorem expand_journal_name_idempotent :
  (forall value : option str,
      expand_journal_name (expand_journal_name value) = expand_journal_name value)
  /\ (forall value : str,
         JOURNAL_EXPANSIONS !! _normalize_journal_name value = None ->
         expand_journal_name (Some value) = Some value).
Proof.
  split.
  - intros [[|c value]|]; [done| |done].
    cbn [expand_journal_name].
    destruct (JOURNAL_EXPANSIONS !! _normalize_journal_name (c :: value))
      as [full|] eqn:E; cbn [default].
    + apply JOURNAL_EXPANSIONS_values in E as [-> | ->]; vm_compute; reflexivity.
    + cbn [expand_journal_name]. by rewrite E.
  - intros [|c value] E; [done|]. cbn [expand_journal_name]. by rewrite E.
Qed.

Lemma expand_journal_name_idempotent_witness :
  expand_journal_name (Some (chars "J. ACM")) = Some (chars "J. ACM").
Proof.
  apply (proj2 expand_journal_name_idempotent). vm_compute. reflexivity.
Defined.

(** ** Substring matching of field names *)

(** C10. The field name is looked for anywhere in the text, inside longer
    names too: in a record whose only field is a booktitle, the lookup of
    title finds the value of the booktitle. *)
Theorem extract_title_inside_booktitle :
  extract_field_value (chars "booktitle = {X}") (chars "title")
  = Return (Some (chars "X"))
  /\ extract_field_value (chars "@inproceedings{k, booktitle = {Proc. X}}")
       (chars "title")
     = Return (Some (chars "Proc. X")).
Proof. split; reflexivity. Qed.

(** ** The menu cursor *)

Section Cursor.

Context {Hit : Type}.
Variable hits : list Hit.

Hypothesis some_hits : 0 < Z.of_nat (length hits).

Lemma selector_step_down (idx key : Z) :
  key ∈ [KEY_DOWN; ord "j"] ->
  selector_step hits idx key
  = Return (Active ((idx + 1) mod Z.of_nat (length hits))).
Proof using some_hits.
  rewrite !elem_of_cons, elem_of_nil. unfold selector_step.
  destruct (Z.eqb_spec (Z.of_nat (length hits)) 0) as [E|_]; [lia|].
  intros [->|[->|[]]]; reflexivity.
Qed.

Lemma selector_step_up (idx key : Z) :
  key ∈ [KEY_UP; ord "k"] ->
  selector_step hits idx key
  = Return (Active ((idx - 1) mod Z.of_nat (length hits))).
Proof using some_hits.
  rewrite !elem_of_cons, elem_of_nil. unfold selector_step.
  destruct (Z.eqb_spec (Z.of_nat (length hits)) 0) as [E|_]; [lia|].
  intros [->|[->|[]]]; reflexivity.
Qed.

Lemma selector_step_in_range (idx key idx' : Z) :
  0 <= idx < Z.of_nat (length hits) ->
  selector_step hits idx key = Return (Active idx') ->
  0 <= idx' < Z.of_nat (length hits).
Proof using some_hits.
  intros Hidx. unfold selector_step.
  destruct (Z.eqb_spec (Z.of_nat (length hits)) 0) as [E|_]; [lia|].
  repeat case_bool_decide.
  - intros [= <-]. by apply Z.mod_pos_bound.
  - intros [= <-]. by apply Z.mod_pos_bound.
  - by destruct (hit_at hits idx).
  - done.
  - by intros [= <-].
Qed.

Lemma selector_from_in_range (keys : list Z) :
  forall idx idx',
    0 <= idx < Z.of_nat (length hits) ->
    selector_from hits idx keys = Return (Active idx') ->
    0 <= idx' < Z.of_nat (length hits).
Proof using some_hits.
  induction keys as [|key keys IH]; intros idx idx' Hidx; cbn [selector_from].
  - by intros [= <-].
  - destruct (selector_step hits idx key) as [[idx1|r]|e] eqn:E; [|done|done].
    apply IH. by apply (selector_step_in_range idx key).
Qed.

Lemma selector_from_down (k : nat) :
  forall idx,
    0 <= idx < Z.of_nat (length hits) ->
    selector_from hits idx (replicate k KEY_DOWN)
    = Return (Active ((idx + Z.of_nat k) mod Z.of_nat (length hits))).
Proof using some_hits.
  induction k as [|k IH]; intros idx Hidx; cbn [replicate selector_from].
  - rewrite Z.add_0_r, Z.mod_small; done.
  - rewrite selector_step_down by (by left).
    rewrite IH by (by apply Z.mod_pos_bound).
    rewrite Zplus_mod_idemp_l. do 3 f_equal. lia.
Qed.

End Cursor.

(** C8. The menu cursor moves in a cycle: with [N > 0] candidates and the
    cursor in range, a key for next puts it on [(cursor + 1) mod N] and a
    key for previous on [(cursor - 1) mod N]; after [N] presses of the
    next key it is back where it started; and after any keys the cursor of
    a menu that is still open satisfies [0 <= cursor < N]. *)
Theorem selector_cursor_cyclic (Hit : Type) (hits : list Hit) (idx : Z) :
  0 < Z.of_nat (length hits) ->
  0 <= idx < Z.of_nat (length hits) ->
  (forall key, key ∈ [KEY_DOWN; ord "j"] ->
     selector_step hits idx key
     = Return (Active ((idx + 1) mod Z.of_nat (length hits))))
  /\ (forall key, key ∈ [KEY_UP; ord "k"] ->
        selector_step hits idx key
        = Return (Active ((idx - 1) mod Z.of_nat (length hits))))
  /\ selector_from hits idx (replicate (length hits) KEY_DOWN) = Return (Active idx)
  /\ (forall keys idx',
         selector_from hits idx keys = Return (Active idx') ->
         0 <= idx' < Z.of_nat (length hits)).
Proof.
  intros Hn Hidx. split; [|split; [|split]].
  - intros key. by apply selector_step_down.
  - intros key. by apply selector_step_up.
  - rewrite selector_from_down by done.
    replace (idx + Z.of_nat (length hits)) with (idx + 1 * Z.of_nat (length hits))
      by lia.
    rewrite Z.mod_add by lia. by rewrite Z.mod_small.
  - intros keys idx'. by apply selector_from_in_range.
Qed.

Lemma selector_cursor_cyclic_witness :
  selector_step [10%nat; 20%nat; 30%nat] 2 KEY_DOWN = Return (Active 0)
  /\ selector_step [10%nat; 20%nat; 30%nat] 0 KEY_UP = Return (Active 2)
  /\ selector_from [10%nat; 20%nat; 30%nat] 1 [KEY_DOWN; KEY_DOWN; KEY_DOWN]
     = Return (Active 1).
Proof.
  split; [|split].
  - apply (proj1 (selector_cursor_cyclic nat [10%nat; 20%nat; 30%nat] 2
                    ltac:(cbn; lia) ltac:(cbn; lia))).
    by left.
  - apply (proj1 (proj2 (selector_cursor_cyclic nat [10%nat; 20%nat; 30%nat] 0
                           ltac:(cbn; lia) ltac:(cbn; lia)))).
    by left.
  - apply (proj1 (proj2 (proj2 (selector_cursor_cyclic nat [10%nat; 20%nat; 30%nat] 1
                                  ltac:(cbn; lia) ltac:(cbn; lia))))).
Defined.

(** ** The numbered prompt *)

Lemma digit_not_q (c : ascii) :
  isdigit_char c = true -> lower_char c <> "q"%char.
Proof. destruct c as [[] [] [] [] [] [] [] []]; vm_compute; congruence. Qed.

Section Prompt.

Context {Hit : Type}.
Variables (first : Hit) (others : list Hit).

Local Abbreviation hits := (first :: others).

(** End of input selects the first candidate. *)
Lemma prompt_loop_eof (out : str) :
  prompt_loop hits [] out = (Return (Selected first), out ++ select_prompt hits).
Proof. reflexivity. Qed.

(** A blank line selects the first candidate. *)
Lemma prompt_loop_blank (line : str) (stdin : list str) (out : str) :
  strip line = [] ->
  prompt_loop hits (line :: stdin) out
  = (Return (Selected first), out ++ select_prompt hits).
Proof.
  intros E. cbn [prompt_loop]. rewrite E.
  assert (int_of_str (chars "1") = Return 1) as Hint by reflexivity.
  cbn [bool_decide]. change (isdigit (chars "1")) with true. rewrite Hint.
  change (lower (chars "1")) with (chars "1").
  rewrite bool_decide_false by done. cbn -[select_prompt].
  destruct (length others); reflexivity.
Qed.

(** The letter q, small or capital, cancels. *)
Lemma prompt_loop_cancel (line : str) (stdin : list str) (out : str) :
  lower (strip line) = chars "q" ->
  prompt_loop hits (line :: stdin) out
  = (Return Cancelled, out ++ select_prompt hits).
Proof.
  intros E. cbn [prompt_loop].
  destruct (strip line) as [|c s]; [done|]. by rewrite bool_decide_true.
Qed.

(** A number between one and the count selects that candidate. *)
Lemma prompt_loop_number (line : str) (stdin : list str) (out : str)
    (value : Z) (hit : Hit) :
  isdigit (strip line) = true ->
  int_of_str (strip line) = Return value ->
  1 <= value <= Z.of_nat (length hits) ->
  hits !! Z.to_nat (value - 1) = Some hit ->
  prompt_loop hits (line :: stdin) out
  = (Return (Selected hit), out ++ select_prompt hits).
Proof.
  intros Hd Hint Hrange Hhit. cbn [prompt_loop].
  destruct (strip line) as [|c s] eqn:E; [done|].
  case_bool_decide as Hq.
  { exfalso. injection Hq as Hq _. revert Hq. apply digit_not_q.
    cbn [isdigit forallb] in Hd. by apply andb_true_iff in Hd as [? _]. }
  rewrite Hd, Hint.
  destruct (Z.leb_spec 0 (value - 1)); [|lia].
  destruct (Z.ltb_spec (value - 1) (Z.of_nat (length hits))); [|lia].
  cbn [andb]. unfold hit_at.
  destruct (Z.leb_spec 0 (value - 1)); [|lia]. by rewrite Hhit.
Qed.

(** Anything else that [int] can read, or that is no digit string, is
    answered with the notice, and the next line is read. *)
Lemma prompt_loop_retry (line : str) (stdin : list str) (out : str) :
  strip line <> [] ->
  lower (strip line) <> chars "q" ->
  isdigit (strip line) = false
  \/ (exists value, int_of_str (strip line) = Return value
                    /\ ~ 1 <= value <= Z.of_nat (length hits)) ->
  prompt_loop hits (line :: stdin) out
  = prompt_loop hits stdin (print (out ++ select_prompt hits) invalid_notice).
Proof.
  intros Hne Hq Hcase. cbn [prompt_loop].
  destruct (strip line) as [|c s] eqn:E; [done|].
  rewrite bool_decide_false by done.
  destruct Hcase as [->|(value & -> & Hrange)]; [done|].
  destruct (isdigit (c :: s)); [|done].
  destruct (Z.leb_spec 0 (value - 1)); [|done].
  destruct (Z.ltb_spec (value - 1) (Z.of_nat (length hits))); [lia|done].
Qed.

End Prompt.

(** C7. The numbered prompt on a line that holds the superscript two: the
    line passes [isdigit], and [int] raises [ValueError] on it, so the
    selection ends in that exception instead of the notice and a new
    prompt, whatever the candidates and whatever follows on the input. *)
Theorem choose_with_numbers_superscript (Hit : Type) (hits : list Hit)
    (descriptions : list str) (stdin : list str) :
  isdigit [chr 178] = true
  /\ int_of_str [chr 178] = Raise ValueError
  /\ fst (choose_with_numbers hits descriptions ([chr 178] :: stdin))
     = Raise ValueError.
Proof. repeat split. Qed.

Example prompt_zero_then_four_then_two :
  fst (choose_with_numbers [10%nat; 20%nat; 30%nat] [] [chars "0"; chars "4"; chars " 2 "])
  = Return (Selected 20%nat).
Proof. reflexivity. Qed.

Example prompt_notice :
  snd (prompt_loop [10%nat; 20%nat; 30%nat] [chars "0"; chars "Q"] [])
  = chars "Select [1-3]: Invalid selection. Try again." ++ [chr 10]
    ++ chars "Select [1-3]: ".
Proof. reflexivity. Qed.

Example parse_sample_header :
  parse_entry_header paper_sample = Return (chars "inproceedings", chars "One20").
Proof. reflexivity. Qed.

Example main_record_sample :
  main_record http_get_failing
    (chars "@article{DBLP:journals/jcr/Foo20, author = {A. One}, title = {Zero Trust}, journal = {commun acm}, year = {2020}}")
  = Return (join [chr 10]
      [ chars "%";
        chars "@article{Foo20,";
        chars "  author    = {A. One},";
        chars "  title     = {Zero Trust},";
        chars "  journal   = {Communications of the ACM},";
        chars "  year      = {2020},";
        chars "}" ]).
Proof. vm_compute. reflexivity. Qed.

(** ** The entry header *)

Lemma span_app (class : ascii -> bool) (run rest : str) :
  Forall (fun c => class c = true) run ->
  (forall c rest', rest = c :: rest' -> class c = false) ->
  span class (run ++ rest) = (run, rest).
Proof.
  intros Hrun Hrest. induction Hrun as [|c run Hc _ IH]; cbn [app span].
  - destruct rest as [|c rest']; [done|]. cbn [span].
    by rewrite (Hrest c rest' eq_refl).
  - by rewrite Hc, IH.
Qed.

Lemma span_inv (class : ascii -> bool) (s run rest : str) :
  span class s = (run, rest) ->
  s = run ++ rest /\ Forall (fun c => class c = true) run.
Proof.
  revert run rest. induction s as [|c s IH]; intros run rest; cbn [span].
  - by intros [= <- <-].
  - destruct (class c) eqn:Hc.
    + destruct (span class s) as [run' rest'].
      destruct (IH run' rest' eq_refl) as [-> Hrun].
      intros [= <- <-]. split; [done|by constructor].
    + by intros [= <- <-].
Qed.

Lemma header_here_other (c : ascii) (s : str) :
  c <> "@"%char -> header_here (c :: s) = None.
Proof. intros Hc. cbn [header_here]. by apply Ascii.eqb_neq in Hc as ->. Qed.

Lemma header_search_skip (pre s : str) :
  "@"%char ∉ pre ->
  header_search (pre ++ s) = header_search s.
Proof.
  induction pre as [|c pre IH]; [done|].
  intros [Hc Hpre]%not_elem_of_cons. cbn [app header_search].
  rewrite header_here_other by done. by apply IH.
Qed.

Lemma header_search_none (s : str) :
  "@"%char ∉ s -> header_search s = None.
Proof.
  intros H. rewrite <- (app_nil_r s), (header_search_skip s [] H). reflexivity.
Qed.

Lemma is_type_char_not_space (c : ascii) :
  is_type_char c = true -> isspace c = false /\ c <> lbrace.
Proof. destruct c as [[] [] [] [] [] [] [] []]; vm_compute; by intuition. Qed.

Lemma is_key_char_not_space (c : ascii) :
  is_key_char c = true -> isspace c = false /\ c <> ","%char.
Proof. destruct c as [[] [] [] [] [] [] [] []]; vm_compute; by intuition. Qed.

(** The match at an [@] that is followed by a type, an opening brace and a
    key, with whitespace allowed around the type and before the key. *)
Lemma header_here_at (ws1 t ws2 ws3 key rest : str) :
  Forall (fun c => isspace c = true) ws1 ->
  Forall (fun c => isspace c = true) ws2 ->
  Forall (fun c => isspace c = true) ws3 ->
  t <> [] -> Forall (fun c => is_type_char c = true) t ->
  key <> [] -> Forall (fun c => is_key_char c = true) key ->
  (forall c rest', rest = c :: rest' -> is_key_char c = false) ->
  header_here ("@"%char :: ws1 ++ t ++ ws2 ++ lbrace :: ws3 ++ key ++ rest)
  = Some (t, key).
Proof.
  intros H1 H2 H3 Ht Htype Hk Hkey Hrest. cbn [header_here].
  change (Ascii.eqb "@" "@") with true. cbn match.
  destruct t as [|a t]; [done|]. destruct key as [|b key]; [done|].
  pose proof (Forall_inv Htype) as Ha. pose proof (Forall_inv Hkey) as Hb.
  apply is_type_char_not_space in Ha as [Ha _].
  apply is_key_char_not_space in Hb as [Hb _].
  cbn [app]. rewrite (lstrip_app ws1 _ a H1 Ha).
  change (a :: t ++ ws2 ++ lbrace :: ws3 ++ b :: key ++ rest)
    with ((a :: t) ++ ws2 ++ lbrace :: ws3 ++ (b :: key) ++ rest).
  rewrite (span_app is_type_char (a :: t)); [|done|].
  2: { intros c rest' E. destruct ws2 as [|w ws2].
       - injection E as <- _. reflexivity.
       - injection E as <- _. apply Forall_inv in H2.
         destruct (is_type_char w) eqn:Hw; [|done].
         apply is_type_char_not_space in Hw as [Hw _]. congruence. }
  rewrite (lstrip_app ws2 _ lbrace H2 eq_refl).
  change (Ascii.eqb lbrace lbrace) with true. cbn match.
  change (ws3 ++ (b :: key) ++ rest) with (ws3 ++ b :: key ++ rest).
  rewrite (lstrip_app ws3 _ b H3 Hb).
  change (b :: key ++ rest) with ((b :: key) ++ rest).
  by rewrite (span_app is_key_char (b :: key) rest Hkey Hrest).
Qed.

Lemma header_search_inv (s t key : str) :
  header_search s = Some (t, key) ->
  key <> [] /\ Forall (fun c => is_key_char c = true) key
  /\ t <> [] /\ Forall (fun c => is_type_char c = true) t.
Proof.
  induction s as [|c s IH]; cbn [header_search].
  - done.
  - destruct (header_here (c :: s)) as [[t' key']|] eqn:E; [|exact IH].
    intros [= -> ->]. cbn [header_here] in E.
    destruct (Ascii.eqb c "@"); [|done].
    destruct (span is_type_char (lstrip s)) as [[|a g1] s1] eqn:E1; [done|].
    destruct (lstrip s1) as [|c1 s2]; [done|].
    destruct (Ascii.eqb c1 lbrace); [|done].
    destruct (span is_key_char (lstrip s2)) as [[|b g2] s3] eqn:E2; [done|].
    injection E as <- <-.
    apply span_inv in E1 as [_ E1]. apply span_inv in E2 as [_ E2]. done.
Qed.

Lemma split_once_app (sep : ascii) (before after : str) :
  sep ∉ before ->
  split_once sep (before ++ sep :: after) = [before; after].
Proof.
  induction before as [|c before IH]; cbn [app split_once].
  - intros _. by rewrite (proj2 (Ascii.eqb_eq sep sep) eq_refl).
  - intros [Hc Hb]%not_elem_of_cons.
    apply not_eq_sym, Ascii.eqb_neq in Hc as ->. by rewrite IH.
Qed.

Lemma rsplit_once_app (sep : ascii) (before after : str) :
  sep ∉ after ->
  rsplit_once sep (before ++ sep :: after) = [before; after].
Proof.
  intros H. unfold rsplit_once.
  rewrite rev_app_distr. cbn [rev]. rewrite <- app_assoc. cbn [app].
  rewrite split_once_app.
  - by rewrite !rev_involutive.
  - by rewrite list_elem_of_In, <- in_rev, <- list_elem_of_In.
Qed.

Lemma startswith_prefix (s prefix : str) :
  startswith s prefix = true -> exists rest, s = prefix ++ rest.
Proof.
  revert s. induction prefix as [|p prefix IH]; intros s; [by exists s|].
  destruct s as [|c s]; [done|]. cbn [startswith].
  intros [->%Ascii.eqb_eq [rest ->]%IH]%andb_true_iff. by exists rest.
Qed.

(** What the two tests on the key of the header do to it. *)
Lemma entry_key_cases (group2 : str) :
  exists entry_key dropped,
    (if startswith group2 (chars "DBLP:")
     then second (split_once ":" group2) else Return group2)
    = Return entry_key
    /\ group2 = dropped ++ entry_key.
Proof.
  destruct (startswith group2 (chars "DBLP:")) eqn:E.
  - apply startswith_prefix in E as [rest ->].
    exists rest, (chars "DBLP:").
    change (chars "DBLP:" ++ rest) with (chars "DBLP" ++ ":"%char :: rest) at 1.
    rewrite (split_once_app ":" (chars "DBLP") rest); [done|].
    apply (bool_decide_unpack _). vm_compute. exact I.
  - by exists group2, [].
Qed.

Lemma entry_name_cases (entry_key : str) :
  exists name dropped,
    (if bool_decide ("/"%char ∈ entry_key)
     then second (rsplit_once "/" entry_key) else Return entry_key)
    = Return name
    /\ entry_key = dropped ++ name
    /\ "/"%char ∉ name.
Proof.
  case_bool_decide as E.
  - apply list_elem_of_split_r in E as (before & after & -> & Hafter).
    exists after, (before ++ ["/"%char]).
    rewrite (rsplit_once_app "/" before after Hafter).
    split; [done|]. split; [|done]. by rewrite <- app_assoc.
  - by exists entry_key, [].
Qed.

(** X8. The parser has a result on every text, and the key of the result holds
    no slash, no comma and no whitespace. *)
Theorem parse_entry_header_key (bibtex : str) :
  exists entry_type entry_key,
    parse_entry_header bibtex = Return (entry_type, entry_key)
    /\ ("/"%char ∉ entry_key)
    /\ (","%char ∉ entry_key)
    /\ Forall (fun c => isspace c = false) entry_key.
Proof.
  unfold parse_entry_header.
  destruct (header_search bibtex) as [[t key]|] eqn:E.
  - destruct (header_search_inv _ _ _ E) as (_ & Hkey & _ & _).
    destruct (entry_key_cases key) as (k1 & d1 & -> & ->).
    destruct (entry_name_cases k1) as (k2 & d2 & -> & -> & Hslash).
    exists t, k2. split; [done|]. split; [done|].
    apply Forall_app in Hkey as [_ Hkey]. apply Forall_app in Hkey as [_ Hkey].
    split.
    + intros Hin. rewrite Forall_forall in Hkey.
      by destruct (is_key_char_not_space _ (Hkey _ Hin)).
    + eapply Forall_impl; [exact Hkey|].
      intros c Hc. by destruct (is_key_char_not_space c Hc).
  - exists (chars "entry"), (chars "unknown"). split; [done|].
    split; [by apply (bool_decide_unpack _)|].
    split; [by apply (bool_decide_unpack _)|].
    by repeat constructor.
Qed.

(** X9. A text with no [@] has no header: the parser answers with the type
    entry and the key unknown. *)
Theorem parse_entry_header_default (bibtex : str) :
  "@"%char ∉ bibtex ->
  parse_entry_header bibtex = Return (chars "entry", chars "unknown").
Proof.
  intros H. unfold parse_entry_header. by rewrite (header_search_none bibtex H).
Qed.

Lemma parse_entry_header_default_witness :
  parse_entry_header (chars "title = {No header here}")
  = Return (chars "entry", chars "unknown").
Proof.
  apply parse_entry_header_default.
  apply (bool_decide_unpack _). vm_compute. exact I.
Defined.

(** X10. A header in the form of the catalog, [@type{DBLP:path/name,], gives
    the type and the name: the prefix and the path are dropped. Nothing
    before the header may hold an [@]. *)
Theorem parse_entry_header_dblp (pre ws1 t ws2 ws3 path name rest : str) :
  "@"%char ∉ pre ->
  Forall (fun c => isspace c = true) ws1 ->
  Forall (fun c => isspace c = true) ws2 ->
  Forall (fun c => isspace c = true) ws3 ->
  t <> [] -> Forall (fun c => is_type_char c = true) t ->
  Forall (fun c => is_key_char c = true) path ->
  Forall (fun c => is_key_char c = true) name ->
  "/"%char ∉ name ->
  parse_entry_header
    (pre ++ "@"%char :: ws1 ++ t ++ ws2 ++ lbrace :: ws3
         ++ (chars "DBLP:" ++ path ++ "/"%char :: name) ++ ","%char :: rest)
  = Return (t, name).
Proof.
  intros Hpre H1 H2 H3 Ht Htype Hpath Hname Hslash.
  unfold parse_entry_header. rewrite (header_search_skip pre _ Hpre).
  assert (header_search ("@"%char :: ws1 ++ t ++ ws2 ++ lbrace :: ws3
            ++ (chars "DBLP:" ++ path ++ "/"%char :: name) ++ ","%char :: rest)
          = Some (t, chars "DBLP:" ++ path ++ "/"%char :: name)) as ->.
  { cbn [header_search]. rewrite header_here_at; try done.
    - apply Forall_app. split; [by repeat constructor|].
      apply Forall_app. split; [done|]. by constructor.
    - by intros c rest' [= <- _]. }
  change (startswith (chars "DBLP:" ++ path ++ "/"%char :: name) (chars "DBLP:"))
    with true. cbn match.
  change (chars "DBLP:" ++ path ++ "/"%char :: name)
    with (chars "DBLP" ++ ":"%char :: path ++ "/"%char :: name).
  rewrite (split_once_app ":" (chars "DBLP") (path ++ "/"%char :: name))
    by (apply (bool_decide_unpack _); vm_compute; exact I).
  cbn [second lookup list_lookup].
  rewrite bool_decide_true by (rewrite elem_of_app; right; by left).
  by rewrite (rsplit_once_app "/" path name Hslash).
Qed.

Lemma parse_entry_header_dblp_witness :
  parse_entry_header
    (chars "% x" ++ "@"%char :: [] ++ chars "article" ++ [space] ++ lbrace :: [space]
       ++ (chars "DBLP:" ++ chars "journals/jcr" ++ "/"%char :: chars "Foo20")
       ++ ","%char :: chars " title = {T}}")
  = Return (chars "article", chars "Foo20").
Proof.
  apply parse_entry_header_dblp;
    try (apply (bool_decide_unpack _); vm_compute; exact I);
    try (repeat constructor); done.
Defined.

Lemma render_entry_head (entry_type entry_key : str)
    (fields : gmap str (option str)) :
  exists rest,
    render_entry entry_type entry_key fields
    = chars "%" ++ [chr 10]
      ++ "@"%char :: entry_type ++ lbrace :: entry_key ++ ","%char :: chr 10 :: rest.
Proof.
  unfold render_entry, render_lines.
  rewrite max_len_FIELD_ORDER, render_loop_lines by (by apply Forall_forall).
  rewrite <- app_assoc. cbn [app].
  destruct (map (assignment_line fields) _ ++ [chars "}"]) as [|l ls] eqn:E.
  { by destruct (map (assignment_line fields) _). }
  cbn [join]. eexists. rewrite <- !app_assoc. cbn [app chars list_ascii_of_string].
  reflexivity.
Qed.

(** X11. The header that the renderer writes is read back by the parser: for a
    type made of characters of the pattern's class and a key with no
    comma, whitespace or slash that does not start with the catalog's
    prefix, parsing the rendered text gives the type and the key. *)
Theorem parse_render_entry (entry_type entry_key : str)
    (fields : gmap str (option str)) :
  entry_type <> [] -> Forall (fun c => is_type_char c = true) entry_type ->
  entry_key <> [] -> Forall (fun c => is_key_char c = true) entry_key ->
  "/"%char ∉ entry_key ->
  startswith entry_key (chars "DBLP:") = false ->
  parse_entry_header (render_entry entry_type entry_key fields)
  = Return (entry_type, entry_key).
Proof.
  intros Ht Htype Hk Hkey Hslash Hprefix.
  destruct (render_entry_head entry_type entry_key fields) as [rest ->].
  unfold parse_entry_header. rewrite (app_assoc (chars "%") [chr 10]).
  rewrite (header_search_skip (chars "%" ++ [chr 10]))
    by (apply (bool_decide_unpack _); vm_compute; exact I).
  cbn [header_search].
  pose proof (header_here_at [] entry_type [] [] entry_key
                (","%char :: chr 10 :: rest)) as E.
  cbn [app] in E. rewrite E; try done.
  - rewrite Hprefix. by rewrite bool_decide_false.
  - by intros c rest' [= <- _].
Qed.

Lemma parse_render_entry_witness :
  parse_entry_header (render_entry (chars "article") (chars "Foo20") paper_fields)
  = Return (chars "article", chars "Foo20").
Proof.
  apply parse_render_entry;
    try (apply (bool_decide_unpack _); vm_compute; exact I); done.
Defined.

(** ** Whitespace at the ends *)

Lemma lstrip_length (s : str) : (length (lstrip s) <= length s)%nat.
Proof.
  induction s as [|c s IH]; cbn [lstrip]; [done|].
  destruct (isspace c); cbn [length]; lia.
Qed.

Lemma lstrip_fixed (c : ascii) (s : str) :
  lstrip (c :: s) = c :: s <-> isspace c = false.
Proof.
  cbn [lstrip]. destruct (isspace c); split; try done.
  intros E. pose proof (lstrip_length s) as H. rewrite E in H. cbn in H. lia.
Qed.

Lemma lstrip_idem (s : str) : lstrip (lstrip s) = lstrip s.
Proof.
  induction s as [|c s IH]; [done|]. cbn [lstrip].
  destruct (isspace c) eqn:E; [done|]. cbn [lstrip]. by rewrite E.
Qed.

Lemma lstrip_snoc (s : str) (c : ascii) :
  lstrip (s ++ [c])
  = match lstrip s with
    | [] => lstrip [c]
    | t => t ++ [c]
    end.
Proof.
  induction s as [|a s IH]; [done|]. cbn [app lstrip].
  by destruct (isspace a).
Qed.

Lemma rstrip_cons (c : ascii) (s : str) :
  rstrip (c :: s)
  = match rstrip s with
    | [] => if isspace c then [] else [c]
    | t => c :: t
    end.
Proof.
  unfold rstrip. cbn [rev]. rewrite lstrip_snoc.
  destruct (lstrip (rev s)) as [|a t] eqn:E.
  - cbn. by destruct (isspace c).
  - rewrite rev_app_distr. cbn [rev app].
    destruct (rev t ++ [a]) eqn:E'; [by destruct (rev t)|done].
Qed.

Lemma rstrip_elem (s : str) (c : ascii) : c ∈ rstrip s -> c ∈ s.
Proof.
  induction s as [|a s IH]; [done|]. rewrite rstrip_cons.
  destruct (rstrip s) as [|b t].
  - destruct (isspace a); [by intros ?%elem_of_nil|].
    intros ->%list_elem_of_singleton. by left.
  - intros [->|H]%elem_of_cons; [by left|]. right. by apply IH.
Qed.

Lemma lstrip_elem (s : str) (c : ascii) : c ∈ lstrip s -> c ∈ s.
Proof.
  induction s as [|a s IH]; [done|]. cbn [lstrip].
  destruct (isspace a); [|done]. intros H. right. by apply IH.
Qed.

Lemma rstrip_last (s : str) (c : ascii) :
  last (rstrip s) = Some c -> isspace c = false.
Proof.
  induction s as [|a s IH]; [done|]. rewrite rstrip_cons.
  destruct (rstrip s) as [|b t].
  - destruct (isspace a) eqn:E; [done|]. by intros [= <-].
  - exact IH.
Qed.

Lemma rstrip_idem (s : str) : rstrip (rstrip s) = rstrip s.
Proof.
  unfold rstrip. by rewrite rev_involutive, lstrip_idem.
Qed.

Lemma rstrip_keeps_head (s : str) :
  lstrip s = s -> lstrip (rstrip s) = rstrip s.
Proof.
  destruct s as [|c s]; [done|]. intros E%lstrip_fixed.
  rewrite rstrip_cons. destruct (rstrip s); rewrite ?E; by apply lstrip_fixed.
Qed.

Lemma strip_idem (s : str) : strip (strip s) = strip s.
Proof.
  unfold strip.
  rewrite (rstrip_keeps_head (lstrip s) (lstrip_idem s)). apply rstrip_idem.
Qed.

Lemma strip_ends (s : str) (c : ascii) :
  head (strip s) = Some c \/ last (strip s) = Some c -> isspace c = false.
Proof.
  intros [H|H]; [|by apply (rstrip_last (lstrip s))].
  pose proof (rstrip_keeps_head (lstrip s) (lstrip_idem s)) as E.
  fold (strip s) in E. destruct (strip s) as [|a t]; [done|].
  injection H as ->. by apply lstrip_fixed in E.
Qed.

Lemma strip_elem (s : str) (c : ascii) : c ∈ strip s -> c ∈ s.
Proof. intros H. by apply lstrip_elem, rstrip_elem. Qed.

Lemma scan_braces_stripped (s : str) :
  forall d acc v, scan_braces s d acc = Some v -> strip v = v.
Proof.
  induction s as [|c s IH]; intros d acc v; cbn [scan_braces]; [done|].
  destruct (Ascii.eqb c lbrace); [apply IH|].
  destruct (Ascii.eqb c rbrace); [|apply IH].
  destruct d; [|apply IH]. intros [= <-]. apply strip_idem.
Qed.

Lemma scan_quote_stripped (s : str) :
  forall before acc v, scan_quote before s acc = Some v -> strip v = v.
Proof.
  induction s as [|c s IH]; intros before acc v; cbn [scan_quote]; [done|].
  destruct (_ && _); [|apply IH]. intros [= <-]. apply strip_idem.
Qed.

(** X2. The extractor never raises, and a value it returns is trimmed: it
    starts and ends with characters that are no whitespace. *)
Theorem extract_field_value_trimmed (bibtex field_name : str) :
  exists result,
    extract_field_value bibtex field_name = Return result
    /\ forall value,
         result = Some value ->
         strip value = value
         /\ forall c, head value = Some c \/ last value = Some c ->
                      isspace c = false.
Proof.
  assert (exists result,
             extract_field_value bibtex field_name = Return result
             /\ forall value, result = Some value -> strip value = value)
    as (result & E & H).
  { unfold extract_field_value, pattern_search.
    destruct (search_from field_name bibtex) as [[d rest]|] eqn:E;
      [|by exists None].
    apply search_from_inv in E as (pre & ->). cbn [group1 match_end].
    replace (len (pre ++ d :: rest) - len rest - 1) with (len pre)
      by (rewrite len_app; unfold len; cbn [length]; lia).
    rewrite extract_braced_value_at, extract_quoted_value_at.
    destruct (Ascii.eqb d lbrace).
    - eexists. split; [done|]. intros value. apply scan_braces_stripped.
    - destruct (Ascii.eqb d dquote); [|by exists None].
      eexists. split; [done|]. intros value. apply scan_quote_stripped. }
  exists result. split; [done|]. intros value Hv. split; [by apply H|].
  intros c Hc. rewrite <- (H value Hv) in Hc. by apply strip_ends in Hc.
Qed.

Lemma extract_field_value_trimmed_witness :
  strip (chars "2020") = chars "2020".
Proof.
  destruct (extract_field_value_trimmed (chars "year = { 2020 }") (chars "year"))
    as (result & E & H).
  assert (result = Some (chars "2020")) as Hr by (by injection E as <-).
  exact (proj1 (H (chars "2020") Hr)).
Defined.

(** ** Lookups that miss and lookups that hit *)

Lemma search_from_sound (name s : str) (d : ascii) (rest : str) :
  search_from name s = Some (d, rest) ->
  exists pre seg, s = pre ++ seg ++ rest /\ field_pattern name d seg.
Proof.
  induction s as [|c s IH]; cbn [search_from].
  - destruct (match_here name []) as [r|] eqn:E; [|done].
    intros [= ->]. apply match_here_inv in E as (seg & E & Hseg).
    by exists [], seg.
  - destruct (match_here name (c :: s)) as [r|] eqn:E.
    + intros [= ->]. apply match_here_inv in E as (seg & E & Hseg).
      by exists [], seg.
    + intros (pre & seg & -> & Hseg)%IH. by exists (c :: pre), seg.
Qed.

(** X3. A field that is not in the text is absent: when no part of the text
    is a word of the pattern for the name, the extractor returns [None]. *)
Theorem extract_field_value_absent (bibtex field_name : str) :
  (forall pre seg rest d,
      bibtex = pre ++ seg ++ rest -> ~ field_pattern field_name d seg) ->
  extract_field_value bibtex field_name = Return None.
Proof.
  intros Hnone. unfold extract_field_value, pattern_search.
  destruct (search_from field_name bibtex) as [[d rest]|] eqn:E; [|done].
  apply search_from_sound in E as (pre & seg & E & Hseg).
  by destruct (Hnone pre seg rest d E).
Qed.

Lemma extract_field_value_absent_witness :
  extract_field_value (chars "@misc{k, title = {T}}") (chars "year") = Return None.
Proof.
  apply extract_field_value_absent.
  intros pre seg rest d E (nm & ws1 & ws2 & -> & Hn & _).
  assert (length nm = 4%nat) as Hlen.
  { apply (f_equal (@length ascii)) in Hn. unfold lower in Hn.
    by rewrite !length_map in Hn. }
  destruct nm as [|a [|b [|c [|e [|]]]]]; try done.
  unfold lower in Hn. cbn [map] in Hn. injection Hn as Ha Hb Hc He.
  assert (Hy : forall x, lower_char x = "y"%char -> x = "y"%char \/ x = "Y"%char).
  { intros x. destruct x as [[] [] [] [] [] [] [] []]; vm_compute; auto; done. }
  apply Hy in Ha.
  assert ("y"%char ∈ chars "@misc{k, title = {T}}"
          \/ "Y"%char ∈ chars "@misc{k, title = {T}}") as [H|H].
  { rewrite E. destruct Ha as [->| ->]; [left|right];
      rewrite !elem_of_app; right; left; left; by left. }
  - revert H. apply (bool_decide_unpack _). vm_compute. exact I.
  - revert H. apply (bool_decide_unpack _). vm_compute. exact I.
Defined.

Lemma lower_nonempty (nm : str) (p : ascii) (name' : str) :
  lower nm = lower (p :: name') ->
  exists c nm', nm = c :: nm' /\ lower_char c = lower_char p.
Proof.
  destruct nm as [|c nm']; [done|]. unfold lower. cbn [map].
  intros [= Hc _]. by exists c, nm'.
Qed.

(** The search finds an assignment that stands after text in which no
    character matches the first letter of the name. *)
Lemma search_from_hit (p : ascii) (name' nm pre ws1 ws2 : str) (d : ascii)
    (rest : str) :
  lower nm = lower (p :: name') ->
  Forall (fun c => lower_char c <> lower_char p) pre ->
  Forall (fun c => isspace c = true) ws1 ->
  Forall (fun c => isspace c = true) ws2 ->
  d = lbrace \/ d = dquote ->
  search_from (p :: name') (pre ++ (nm ++ ws1 ++ equals :: ws2 ++ [d]) ++ rest)
  = Some (d, rest).
Proof.
  intros Hnm Hpre H1 H2 Hd. apply search_from_first.
  - by exists nm, ws1, ws2.
  - intros pre' seg' rest' d' E (nm' & ws1' & ws2' & -> & Hnm' & _).
    destruct (lower_nonempty _ _ _ Hnm') as (c & nm'' & -> & Hc).
    destruct (Nat.le_gt_cases (length pre) (length pre')) as [|Hlt]; [done|].
    exfalso. apply (f_equal (fun l => l !! length pre')) in E.
    rewrite <- !app_assoc in E. cbn [app] in E.
    rewrite list_lookup_middle in E by done.
    rewrite lookup_app_l in E by done.
    symmetry in E. apply list_elem_of_lookup_2 in E.
    rewrite Forall_forall in Hpre. by apply (Hpre c E).
Qed.

Lemma extract_field_value_at (p : ascii) (name' nm pre ws1 ws2 : str)
    (d : ascii) (rest : str) :
  lower nm = lower (p :: name') ->
  Forall (fun c => lower_char c <> lower_char p) pre ->
  Forall (fun c => isspace c = true) ws1 ->
  Forall (fun c => isspace c = true) ws2 ->
  d = lbrace \/ d = dquote ->
  extract_field_value (pre ++ (nm ++ ws1 ++ equals :: ws2 ++ [d]) ++ rest)
    (p :: name')
  = if Ascii.eqb d lbrace then Return (scan_braces rest 0 [])
    else Return (scan_quote dquote rest []).
Proof.
  intros Hnm Hpre H1 H2 Hd. unfold extract_field_value, pattern_search.
  rewrite (search_from_hit p name' nm pre ws1 ws2 d rest) by done.
  cbn [group1 match_end].
  replace (pre ++ (nm ++ ws1 ++ equals :: ws2 ++ [d]) ++ rest)
    with ((pre ++ nm ++ ws1 ++ equals :: ws2) ++ d :: rest).
  2: { rewrite <- !app_assoc. cbn [app]. by rewrite <- !app_assoc. }
  replace (len ((pre ++ nm ++ ws1 ++ equals :: ws2) ++ d :: rest) - len rest - 1)
    with (len (pre ++ nm ++ ws1 ++ equals :: ws2))
    by (rewrite (len_app _ (d :: rest)); unfold len; cbn [length]; lia).
  rewrite extract_braced_value_at, extract_quoted_value_at.
  by destruct Hd as [-> | ->].
Qed.

Lemma scan_quote_plain (body : str) :
  forall before acc rest,
    dquote ∉ body ->
    last (before :: body) <> Some backslash ->
    scan_quote before (body ++ dquote :: rest) acc = Some (strip (acc ++ body)).
Proof.
  induction body as [|c body IH]; intros before acc rest Hq Hlast.
  - cbn [app scan_quote]. change (Ascii.eqb dquote dquote) with true.
    destruct (Ascii.eqb_spec before backslash) as [->|_]; [done|].
    cbn. by rewrite app_nil_r.
  - apply not_elem_of_cons in Hq as [Hc Hq]. cbn [app scan_quote].
    apply not_eq_sym, Ascii.eqb_neq in Hc as ->. cbn [andb].
    rewrite (IH c (acc ++ [c]) rest Hq Hlast). by rewrite <- app_assoc.
Qed.

(** X4. What is written as [name = {value}] or as a quoted value is read
    back: after text that holds no character matching the first letter of
    the name, the name in any letter case, whitespace, [=], whitespace and a
    balanced value in braces give the trimmed value; the same holds for a
    value in quotes that holds no quote and does not end in a backslash. *)
Theorem extract_field_value_assignment (p : ascii)
    (name' nm pre ws1 ws2 body rest : str) :
  lower nm = lower (p :: name') ->
  Forall (fun c => lower_char c <> lower_char p) pre ->
  Forall (fun c => isspace c = true) ws1 ->
  Forall (fun c => isspace c = true) ws2 ->
  (balanced body ->
   extract_field_value
     (pre ++ (nm ++ ws1 ++ equals :: ws2 ++ [lbrace]) ++ body ++ rbrace :: rest)
     (p :: name')
   = Return (Some (strip body)))
  /\ (dquote ∉ body -> last body <> Some backslash ->
      extract_field_value
        (pre ++ (nm ++ ws1 ++ equals :: ws2 ++ [dquote]) ++ body ++ dquote :: rest)
        (p :: name')
      = Return (Some (strip body))).
Proof.
  intros Hnm Hpre H1 H2. split.
  - intros Hbody. rewrite extract_field_value_at by auto.
    change (Ascii.eqb lbrace lbrace) with true. cbn match.
    by rewrite (scan_braces_balanced body Hbody).
  - intros Hq Hlast. rewrite extract_field_value_at by auto.
    change (Ascii.eqb dquote lbrace) with false. cbn match.
    rewrite scan_quote_plain; [done|done|].
    destruct body as [|c body]; [done|]. by rewrite last_cons_cons.
Qed.

Lemma extract_field_value_assignment_witness :
  extract_field_value
    (chars "@a{k, " ++ (chars "Title" ++ [space] ++ equals :: [space] ++ [lbrace])
       ++ chars " On {B}ibs " ++ rbrace :: chars ", year = 2020}")
    (chars "title")
  = Return (Some (chars "On {B}ibs")).
Proof.
  refine (proj1 (extract_field_value_assignment "t" (chars "itle") (chars "Title")
                   (chars "@a{k, ") [space] [space] (chars " On {B}ibs ")
                   (chars ", year = 2020}") eq_refl _ _ _) _).
  - apply (bool_decide_unpack _). vm_compute. exact I.
  - repeat constructor.
  - repeat constructor.
  - do 4 (apply balanced_char; [discriminate|discriminate|]).
    apply (balanced_group (chars "B") (chars "ibs ")).
    + repeat (apply balanced_char; [discriminate|discriminate|]). constructor.
    + repeat (apply balanced_char; [discriminate|discriminate|]). constructor.
Defined.

(** ** Balanced values *)

Lemma brace_depth_balanced (b : str) :
  balanced b -> forall t d, brace_depth (b ++ t) d = brace_depth t d.
Proof.
  induction 1 as [|c s Hl Hr _ IH|s1 s2 _ IH1 _ IH2]; intros t d.
  - done.
  - cbn [app brace_depth]. apply Ascii.eqb_neq in Hl, Hr. by rewrite Hl, Hr, IH.
  - cbn [app brace_depth]. change (Ascii.eqb lbrace lbrace) with true. cbn match.
    rewrite <- app_assoc, IH1. cbn [app brace_depth].
    change (Ascii.eqb rbrace lbrace) with false.
    change (Ascii.eqb rbrace rbrace) with true. cbn match. apply IH2.
Qed.

Lemma brace_depth_closes (s : str) :
  forall d, brace_depth s d = Some 0%nat -> closes d s.
Proof.
  induction s as [|c s IH]; intros d; cbn [brace_depth].
  - intros [= ->]. constructor.
  - destruct (Ascii.eqb_spec c lbrace) as [->|Hl].
    + intros (b & body' & -> & Hb & Hc)%IH. by apply closes_group.
    + destruct (Ascii.eqb_spec c rbrace) as [->|Hr].
      * destruct d as [|d]; [done|]. intros Hc%IH.
        exists [], s. split; [done|]. split; [constructor|done].
      * intros Hc%IH. by apply closes_char.
Qed.

Lemma balanced_depth (s : str) : balanced s <-> brace_depth s 0 = Some 0%nat.
Proof.
  split.
  - intros H. rewrite <- (app_nil_r s). by rewrite (brace_depth_balanced s H).
  - apply (brace_depth_closes s 0).
Qed.

Lemma isspace_no_brace (c : ascii) :
  isspace c = true -> Ascii.eqb c lbrace = false /\ Ascii.eqb c rbrace = false.
Proof. destruct c as [[] [] [] [] [] [] [] []]; vm_compute; by intuition. Qed.

Lemma brace_depth_lstrip (s : str) (d : nat) :
  brace_depth (lstrip s) d = brace_depth s d.
Proof.
  induction s as [|c s IH]; [done|]. cbn [lstrip brace_depth].
  destruct (isspace c) eqn:E; [|done].
  destruct (isspace_no_brace c E) as [-> ->]. exact IH.
Qed.

Lemma brace_depth_rstrip (s : str) :
  forall d, brace_depth (rstrip s) d = brace_depth s d.
Proof.
  induction s as [|c s IH]; intros d; [done|]. rewrite rstrip_cons.
  destruct (rstrip s) as [|a t] eqn:E.
  - destruct (isspace c) eqn:Hc.
    + cbn [brace_depth]. destruct (isspace_no_brace c Hc) as [-> ->].
      by rewrite <- IH.
    + cbn [brace_depth]. destruct (Ascii.eqb c lbrace); [apply IH|].
      destruct (Ascii.eqb c rbrace); [|apply IH].
      destruct d; [done|apply IH].
  - cbn [brace_depth]. destruct (Ascii.eqb c lbrace); [apply IH|].
    destruct (Ascii.eqb c rbrace); [|apply IH].
    destruct d; [done|apply IH].
Qed.

Lemma brace_depth_sub_spaces (s : str) :
  forall in_run d, brace_depth (sub_spaces in_run s) d = brace_depth s d.
Proof.
  induction s as [|c s IH]; intros in_run d; [done|]. cbn [sub_spaces].
  destruct (isspace c) eqn:E.
  - cbn [brace_depth]. destruct (isspace_no_brace c E) as [-> ->].
    destruct in_run; [apply IH|].
    change (brace_depth (space :: sub_spaces true s) d)
      with (brace_depth (sub_spaces true s) d). apply IH.
  - cbn [brace_depth]. destruct (Ascii.eqb c lbrace); [apply IH|].
    destruct (Ascii.eqb c rbrace); [|apply IH].
    destruct d; [done|apply IH].
Qed.

Lemma balanced_strip (s : str) : balanced s -> balanced (strip s).
Proof.
  rewrite !balanced_depth. unfold strip.
  by rewrite brace_depth_rstrip, brace_depth_lstrip.
Qed.

Lemma balanced_oneline (s : str) :
  balanced s -> balanced (strip (sub_spaces false s)).
Proof.
  intros H. apply balanced_strip. apply balanced_depth.
  rewrite brace_depth_sub_spaces. by apply balanced_depth.
Qed.

(** X5. A value read in brace mode has its braces matched. *)
Theorem extract_braced_value_balanced (text : str) (start_index : nat)
    (value : str) :
  _extract_braced_value text (Z.of_nat start_index) = Return (Some value) ->
  balanced value.
Proof.
  intros Hv. destruct (text !! start_index) as [c|] eqn:Hat.
  - destruct (split_at _ _ _ Hat) as [Htext Hlen].
    pose proof (extract_braced_value_at (take start_index text) c
                  (drop (S start_index) text)) as E.
    rewrite <- Htext in E. unfold len in E. rewrite Hlen, Hv in E.
    destruct (Ascii.eqb c lbrace); [|done]. injection E as E. symmetry in E.
    apply scan_braces_closes in E as (body & rest & _ & Hc & ->).
    by apply balanced_strip.
  - unfold _extract_braced_value in Hv.
    destruct (Z.leb_spec (len text) (Z.of_nat start_index)); [done|].
    by rewrite getitem_offset, Hat in Hv.
Qed.

Lemma extract_braced_value_balanced_witness :
  balanced (chars "The {DBLP} Story").
Proof.
  apply (extract_braced_value_balanced (chars "t = { The {DBLP} Story } x") 4).
  reflexivity.
Defined.

Lemma FIELD_ORDER_first_letter (name : str) :
  name ∈ FIELD_ORDER ->
  exists p name', name = p :: name' /\ lower_char space <> lower_char p.
Proof.
  unfold FIELD_ORDER. rewrite !elem_of_cons, elem_of_nil.
  intros H. repeat destruct H as [->|H]; try done; by eexists _, _.
Qed.

(** X6. The line that the renderer writes for a field is read back by the
    extractor: for a field of the fixed order whose value has matched
    braces, looking the field up in its line gives the value as it was
    rendered, on one line and trimmed. *)
Theorem extract_assignment_line (fields : gmap str (option str))
    (name value : str) :
  name ∈ FIELD_ORDER ->
  dict_get fields name = Some value ->
  balanced value ->
  extract_field_value (assignment_line fields name) name
  = Return (Some (strip (sub_spaces false value))).
Proof.
  intros Hname Hget Hbal.
  destruct (FIELD_ORDER_first_letter name Hname) as (p & name' & -> & Hp).
  unfold assignment_line. rewrite Hget.
  change (default [] (Some value)) with value.
  set (w := strip (sub_spaces false value)).
  set (k := (9 - length (p :: name'))%nat).
  replace (chars "  " ++ (p :: name') ++ replicate k space ++ chars " = {"
           ++ w ++ chars "},")
    with (chars "  " ++ ((p :: name') ++ (replicate k space ++ [space])
                         ++ equals :: [space] ++ [lbrace])
          ++ w ++ rbrace :: chars ",").
  2: { cbn [app chars list_ascii_of_string]. by rewrite <- !app_assoc. }
  rewrite (extract_field_value_at p name' (p :: name') (chars "  ")
             (replicate k space ++ [space]) [space] lbrace
             (w ++ rbrace :: chars ",")); try done.
  - change (Ascii.eqb lbrace lbrace) with true. cbn match.
    rewrite (scan_braces_balanced w) by (by apply balanced_oneline).
    cbn [scan_braces app]. change (Ascii.eqb rbrace lbrace) with false.
    change (Ascii.eqb rbrace rbrace) with true. cbn match.
    unfold w. by rewrite strip_idem.
  - by repeat constructor.
  - apply Forall_app. split; [apply Forall_replicate|]; by repeat constructor.
  - by repeat constructor.
  - by left.
Qed.

Lemma extract_assignment_line_witness :
  extract_field_value (chars "  title     = {T},") (chars "title")
  = Return (Some (chars "T")).
Proof.
  apply (extract_assignment_line paper_fields (chars "title") (chars "T")).
  - apply (bool_decide_unpack _). vm_compute. exact I.
  - reflexivity.
  - apply balanced_char; [discriminate|discriminate|constructor].
Defined.

(** ** Collapsed whitespace *)

Lemma sub_spaces_elem (value : str) (c : ascii) :
  forall in_run,
    c ∈ sub_spaces in_run value ->
    c = space \/ (c ∈ value /\ isspace c = false).
Proof.
  induction value as [|a value IH]; intros in_run; cbn [sub_spaces].
  - by intros ?%elem_of_nil.
  - destruct (isspace a) eqn:E.
    + destruct in_run.
      * intros [->|[H ?]]%IH; [by left|]. right. split; [by right|done].
      * intros [->|[->|[H ?]]%IH]%elem_of_cons; [by left|by left|].
        right. split; [by right|done].
    + intros [->|[->|[H ?]]%IH]%elem_of_cons.
      * right. split; [by left|done].
      * by left.
      * right. split; [by right|done].
Qed.

Lemma collapsed_sub_spaces (value : str) :
  forall in_run, collapsed in_run (sub_spaces in_run value) = true.
Proof.
  induction value as [|a value IH]; intros in_run; [done|]. cbn [sub_spaces].
  destruct (isspace a) eqn:E.
  - destruct in_run; [apply IH|]. cbn [collapsed].
    change (isspace space) with true. cbn. apply IH.
  - cbn [collapsed]. rewrite E. apply IH.
Qed.

Lemma collapsed_fixed (s : str) :
  forall in_run, collapsed in_run s = true -> sub_spaces in_run s = s.
Proof.
  induction s as [|c s IH]; intros in_run; [done|]. cbn [collapsed sub_spaces].
  destruct (isspace c).
  - destruct in_run; [done|]. cbn [negb andb].
    intros [->%Ascii.eqb_eq H]%andb_true_iff. by rewrite (IH true H).
  - intros H. by rewrite (IH false H).
Qed.

Lemma collapsed_weaken (s : str) :
  collapsed true s = true -> collapsed false s = true.
Proof. destruct s as [|c s]; [done|]. cbn [collapsed]. by destruct (isspace c). Qed.

Lemma collapsed_lstrip (s : str) (in_run : bool) :
  collapsed in_run s = true -> collapsed true (lstrip s) = true.
Proof.
  destruct s as [|c s]; [done|]. cbn [collapsed lstrip].
  destruct (isspace c) eqn:E; [|cbn [collapsed]; by rewrite E].
  intros [_ H]%andb_true_iff. destruct s as [|a s]; [done|].
  cbn [collapsed lstrip] in *. destruct (isspace a) eqn:Ea; [done|].
  cbn [collapsed]. by rewrite Ea.
Qed.

Lemma collapsed_rstrip (s : str) :
  forall in_run, collapsed in_run s = true -> collapsed in_run (rstrip s) = true.
Proof.
  induction s as [|c s IH]; intros in_run; [done|]. rewrite rstrip_cons.
  cbn [collapsed]. destruct (rstrip s) as [|a t] eqn:E.
  - destruct (isspace c) eqn:Hc; [done|]. cbn [collapsed]. by rewrite Hc.
  - cbn [collapsed]. destruct (isspace c).
    + intros [-> H]%andb_true_iff. by apply IH in H.
    + apply IH.
Qed.

Lemma collapsed_oneline (value : str) :
  collapsed true (strip (sub_spaces false value)) = true.
Proof.
  apply collapsed_rstrip, (collapsed_lstrip _ false), collapsed_sub_spaces.
Qed.

Lemma oneline_elem (value : str) (c : ascii) :
  c ∈ strip (sub_spaces false value) -> isspace c = true -> c = space.
Proof.
  intros H%strip_elem%sub_spaces_elem Hc. destruct H as [->|[_ H]]; congruence.
Qed.

Lemma FIELD_ORDER_no_space (name : str) (c : ascii) :
  name ∈ FIELD_ORDER -> c ∈ name -> isspace c = false.
Proof.
  unfold FIELD_ORDER. rewrite !elem_of_cons, elem_of_nil.
  intros H. repeat destruct H as [->|H]; try done;
    cbn [chars list_ascii_of_string]; rewrite !elem_of_cons, elem_of_nil;
    intros Hc; repeat destruct Hc as [->|Hc]; done.
Qed.

Lemma render_lines_whitespace (entry_type entry_key : str)
    (fields : gmap str (option str)) (line : str) (c : ascii) :
  line ∈ render_lines entry_type entry_key fields ->
  c ∈ line ->
  isspace c = true ->
  c = space \/ c ∈ entry_type \/ c ∈ entry_key.
Proof.
  unfold render_lines.
  rewrite max_len_FIELD_ORDER, render_loop_lines by (by apply Forall_forall).
  rewrite !elem_of_app, !elem_of_cons, !elem_of_nil, list_elem_of_In, in_map_iff.
  intros Hline Hc Hs.
  destruct Hline as [[[ -> | [ -> | [] ] ] | (name & <- & Hin) ] | [ -> | [] ] ].
  - apply list_elem_of_singleton in Hc as ->. done.
  - rewrite !elem_of_app in Hc. cbn [chars list_ascii_of_string] in Hc.
    rewrite !list_elem_of_singleton in Hc.
    destruct Hc as [ -> | [ ? | [ -> | [ ? | -> ] ] ] ]; auto; done.
  - apply list_elem_of_In, list_elem_of_filter in Hin as [_ Hname].
    unfold assignment_line in Hc. rewrite !elem_of_app in Hc.
    destruct Hc as [Hc|[Hc|[Hc|[Hc|[Hc|Hc]]]]].
    + left. cbn [chars list_ascii_of_string] in Hc.
      rewrite !elem_of_cons, elem_of_nil in Hc.
      by destruct Hc as [ -> | [ -> | [] ] ].
    + by rewrite (FIELD_ORDER_no_space name c Hname Hc) in Hs.
    + left. by apply elem_of_replicate in Hc as [-> _].
    + cbn [chars list_ascii_of_string] in Hc.
      rewrite !elem_of_cons, elem_of_nil in Hc.
      destruct Hc as [ -> | [ -> | [ -> | [ -> | [] ] ] ] ]; auto; done.
    + left. by apply (oneline_elem _ c Hc).
    + cbn [chars list_ascii_of_string] in Hc.
      rewrite !elem_of_cons, elem_of_nil in Hc.
      destruct Hc as [ -> | [ -> | [] ] ]; done.
  - apply list_elem_of_singleton in Hc as ->. done.
Qed.

Lemma newlines_app (s t : str) : newlines (s ++ t) = (newlines s + newlines t)%nat.
Proof. unfold newlines. by rewrite filter_app, length_app. Qed.

Lemma newlines_none (s : str) : chr 10 ∉ s -> newlines s = 0%nat.
Proof.
  unfold newlines. induction s as [|c s IH]; [done|].
  intros [Hc Hs]%not_elem_of_cons. rewrite filter_cons, decide_False by done.
  by apply IH.
Qed.

Lemma newlines_join (lines : list str) :
  Forall (fun line => chr 10 ∉ line) lines ->
  newlines (join [chr 10] lines) = (length lines - 1)%nat.
Proof.
  induction 1 as [|line lines Hline Hlines IH]; [done|].
  destruct lines as [|line' lines].
  - cbn [join length]. by rewrite newlines_none.
  - change (join [chr 10] (line :: line' :: lines))
      with (line ++ [chr 10] ++ join [chr 10] (line' :: lines)).
    rewrite !newlines_app, IH, (newlines_none line Hline).
    cbn [length]. change (newlines [chr 10]) with 1%nat. lia.
Qed.

(** X7. Every line that the renderer writes is one line: the only whitespace
    in it is the space, unless the entry type or the entry key brings some
    other, so that a value spread over several lines is printed on one.
    With no line break in the type and in the key, the text has a line for
    the comment mark, one for the header, one for each present field and
    one for the closing brace. *)
Theorem render_entry_one_line_each (entry_type entry_key : str)
    (fields : gmap str (option str)) :
  (forall line c,
      line ∈ render_lines entry_type entry_key fields ->
      c ∈ line ->
      isspace c = true ->
      c = space \/ c ∈ entry_type \/ c ∈ entry_key)
  /\ (chr 10 ∉ entry_type -> chr 10 ∉ entry_key ->
      newlines (render_entry entry_type entry_key fields)
      = (2 + length (filter (fun name => present fields name = true) FIELD_ORDER))%nat).
Proof.
  split; [intros line c; apply render_lines_whitespace|].
  intros Ht Hk. unfold render_entry. rewrite newlines_join.
  - unfold render_lines.
    rewrite max_len_FIELD_ORDER, render_loop_lines by (by apply Forall_forall).
    rewrite !length_app, length_map. cbn [length]. lia.
  - apply Forall_forall. intros line Hline Hc.
    destruct (render_lines_whitespace entry_type entry_key fields line (chr 10)
                Hline Hc eq_refl) as [?|[?|?]]; done.
Qed.

Lemma render_entry_one_line_each_witness :
  newlines (render_entry (chars "article") (chars "Foo20") (list_to_map items_sample))
  = 4%nat.
Proof.
  rewrite (proj2 (render_entry_one_line_each (chars "article") (chars "Foo20")
                    (list_to_map items_sample))).
  - vm_compute. reflexivity.
  - apply (bool_decide_unpack _). vm_compute. exact I.
  - apply (bool_decide_unpack _). vm_compute. exact I.
Defined.

(** ** The rendered text *)

Lemma split_lines_line (line : str) :
  chr 10 ∉ line -> split_lines line = [line].
Proof.
  induction line as [|c line IH]; [done|].
  intros [Hc Hline]%not_elem_of_cons. cbn [split_lines].
  apply not_eq_sym, Ascii.eqb_neq in Hc as ->. by rewrite IH.
Qed.

Lemma split_lines_app (line rest : str) :
  chr 10 ∉ line ->
  split_lines (line ++ chr 10 :: rest) = line :: split_lines rest.
Proof.
  induction line as [|c line IH].
  - intros _. cbn [app split_lines].
    by rewrite (proj2 (Ascii.eqb_eq (chr 10) (chr 10)) eq_refl).
  - intros [Hc Hline]%not_elem_of_cons. cbn [app split_lines].
    apply not_eq_sym, Ascii.eqb_neq in Hc as ->. by rewrite IH.
Qed.

Lemma split_lines_join (lines : list str) :
  lines <> [] ->
  Forall (fun line => chr 10 ∉ line) lines ->
  split_lines (join [chr 10] lines) = lines.
Proof.
  intros Hne Hall. induction Hall as [|line lines Hline Hlines IH]; [done|].
  destruct lines as [|line' lines].
  - cbn [join]. by apply split_lines_line.
  - change (join [chr 10] (line :: line' :: lines))
      with (line ++ chr 10 :: join [chr 10] (line' :: lines)).
    rewrite (split_lines_app _ _ Hline). by rewrite IH.
Qed.

Lemma render_lines_fields (entry_type entry_key : str)
    (fields : gmap str (option str)) :
  render_lines entry_type entry_key fields
  = [chars "%"; chars "@" ++ entry_type ++ chars "{" ++ entry_key ++ chars ","]
    ++ map (assignment_line fields)
         (filter (fun name => present fields name = true) FIELD_ORDER)
    ++ [chars "}"].
Proof.
  unfold render_lines. rewrite max_len_FIELD_ORDER, render_loop_lines.
  - by rewrite <- app_assoc.
  - by apply Forall_forall.
Qed.

Lemma render_lines_no_absent (entry_type entry_key : str)
    (fields : gmap str (option str)) (name line : str) :
  name ∈ FIELD_ORDER ->
  present fields name = false ->
  line ∈ render_lines entry_type entry_key fields ->
  ~ assignment_prefix name `prefix_of` line.
Proof.
  intros Hname Habsent. rewrite render_lines_fields.
  rewrite !elem_of_app, !elem_of_cons, !elem_of_nil.
  rewrite list_elem_of_In, in_map_iff.
  intros Hline [k Hk].
  destruct Hline as [[ -> | [ -> | [] ] ] | [ (name' & <- & Hin) | [ -> | [] ] ] ].
  - apply (f_equal length) in Hk.
    rewrite length_app, (assignment_prefix_length name Hname) in Hk.
    cbn in Hk. lia.
  - unfold assignment_prefix in Hk. discriminate Hk.
  - apply list_elem_of_In, list_elem_of_filter in Hin as [Hp Hname'].
    destruct (assignment_line_prefix fields name' Hname') as [value Hv].
    rewrite Hv in Hk. apply app_inj_1 in Hk as [Hk _].
    + apply (assignment_prefix_differs name' name Hname' Hname); [|done].
      intros ->. congruence.
    + by rewrite !assignment_prefix_length.
  - apply (f_equal length) in Hk.
    rewrite length_app, (assignment_prefix_length name Hname) in Hk.
    cbn in Hk. lia.
Qed.

(** C6. Rendering. The text that [render_entry] returns is the comment
    mark, the header, the lines of the present fields, one each, in the
    fixed order of [FIELD_ORDER], and the closing brace, joined by line
    breaks. With no line break in the entry type and the entry key, these
    are the lines of the returned text, and no line of the returned text
    assigns a field that is absent or empty. Every field line starts with
    two spaces and the name padded to nine columns, the length of the
    longest name of the fixed order, whatever fields are present. The
    order in which the mapping was filled does not change the text. *)
Theorem render_entry_fixed_order (entry_type entry_key : str)
    (fields : gmap str (option str)) :
  render_entry entry_type entry_key fields
  = join [chr 10]
      ([chars "%"; chars "@" ++ entry_type ++ chars "{" ++ entry_key ++ chars ","]
       ++ map (assignment_line fields)
            (filter (fun name => present fields name = true) FIELD_ORDER)
       ++ [chars "}"])
  /\ (chr 10 ∉ entry_type -> chr 10 ∉ entry_key ->
      split_lines (render_entry entry_type entry_key fields)
      = [chars "%"; chars "@" ++ entry_type ++ chars "{" ++ entry_key ++ chars ","]
        ++ map (assignment_line fields)
             (filter (fun name => present fields name = true) FIELD_ORDER)
        ++ [chars "}"]
      /\ forall name line,
           name ∈ FIELD_ORDER ->
           present fields name = false ->
           line ∈ split_lines (render_entry entry_type entry_key fields) ->
           ~ assignment_prefix name `prefix_of` line)
  /\ render_lines entry_type entry_key fields
     = [chars "%"; chars "@" ++ entry_type ++ chars "{" ++ entry_key ++ chars ","]
       ++ map (assignment_line fields)
            (filter (fun name => present fields name = true) FIELD_ORDER)
       ++ [chars "}"]
  /\ (forall name line,
         name ∈ FIELD_ORDER ->
         present fields name = false ->
         line ∈ render_lines entry_type entry_key fields ->
         ~ assignment_prefix name `prefix_of` line)
  /\ (forall name,
         name ∈ FIELD_ORDER ->
         take 15 (assignment_line fields name)
         = chars "  " ++ ljust name (max_len FIELD_ORDER) ++ chars " = {"
         /\ len (ljust name (max_len FIELD_ORDER)) = 9
         /\ len name <= 9)
  /\ (forall items1 items2 : list (str * option str),
         NoDup items1.*1 ->
         items1 ≡ₚ items2 ->
         render_entry entry_type entry_key (list_to_map items1)
         = render_entry entry_type entry_key (list_to_map items2)).
Proof.
  pose proof (render_lines_fields entry_type entry_key fields) as Hlines.
  split; [|split; [|split; [|split; [|split]]]].
  - unfold render_entry. by rewrite Hlines.
  - intros Ht Hk.
    assert (split_lines (render_entry entry_type entry_key fields)
            = render_lines entry_type entry_key fields) as Hsplit.
    { unfold render_entry. apply split_lines_join.
      - rewrite Hlines. done.
      - apply Forall_forall. intros line Hline Hc.
        destruct (render_lines_whitespace entry_type entry_key fields line
                    (chr 10) Hline Hc eq_refl) as [?|[?|?]]; done. }
    rewrite Hsplit. split; [exact Hlines|].
    intros name line. apply render_lines_no_absent.
  - exact Hlines.
  - intros name line. apply render_lines_no_absent.
  - intros name H. unfold FIELD_ORDER in H.
    rewrite !elem_of_cons, elem_of_nil in H.
    repeat destruct H as [->|H]; try done.
  - intros items1 items2 Hnd Hperm.
    by rewrite (list_to_map_proper items1 items2 Hnd Hperm).
Qed.

Example render_two_fields :
  render_lines (chars "article") (chars "Foo20") (list_to_map items_sample)
  = [ chars "%";
      chars "@article{Foo20,";
      chars "  author    = {A. One},";
      chars "  year      = {2020},";
      chars "}" ].
Proof. vm_compute. reflexivity. Qed.

Example render_two_fields_text :
  render_entry (chars "article") (chars "Foo20") (list_to_map items_sample)
  = chars "%" ++ chr 10 :: chars "@article{Foo20," ++ chr 10
    :: chars "  author    = {A. One}," ++ chr 10
    :: chars "  year      = {2020}," ++ chr 10 :: chars "}".
Proof. vm_compute. reflexivity. Qed.

Lemma render_entry_fixed_order_witness :
  render_entry (chars "article") (chars "Foo20") (list_to_map items_sample)
  = render_entry (chars "article") (chars "Foo20") (list_to_map items_sample_reversed)
  /\ ~ assignment_prefix (chars "title") `prefix_of` chars "  author    = {A. One},"
  /\ split_lines (render_entry (chars "article") (chars "Foo20")
                    (list_to_map items_sample))
     = [chars "%"; chars "@" ++ chars "article" ++ chars "{" ++ chars "Foo20" ++ chars ","]
       ++ map (assignment_line (list_to_map items_sample))
            (filter (fun name => present (list_to_map items_sample) name = true)
               FIELD_ORDER)
       ++ [chars "}"]
  /\ ~ assignment_prefix (chars "title") `prefix_of` chars "  year      = {2020},".
Proof.
  pose proof (render_entry_fixed_order (chars "article") (chars "Foo20")
                (list_to_map items_sample))
    as (_ & Htext & _ & Habsent & _ & Horder).
  assert (chr 10 ∉ chars "article") as Ht
    by (apply (bool_decide_unpack _); vm_compute; exact I).
  assert (chr 10 ∉ chars "Foo20") as Hk
    by (apply (bool_decide_unpack _); vm_compute; exact I).
  destruct (Htext Ht Hk) as [Hsplit Habsent'].
  split; [|split; [|split]].
  - apply Horder.
    + apply (bool_decide_unpack _). vm_compute. exact I.
    + apply Permutation_swap.
  - apply Habsent.
    + apply (bool_decide_unpack _). vm_compute. exact I.
    + reflexivity.
    + rewrite render_two_fields. apply (bool_decide_unpack _). vm_compute. exact I.
  - exact Hsplit.
  - apply Habsent'.
    + apply (bool_decide_unpack _). vm_compute. exact I.
    + reflexivity.
    + rewrite render_two_fields_text.
      apply (bool_decide_unpack _). vm_compute. exact I.
Defined.

(** ** Normalised journal names *)

Lemma lower_char_idem (c : ascii) : lower_char (lower_char c) = lower_char c.
Proof. by destruct c as [[] [] [] [] [] [] [] []]. Qed.

Lemma lower_char_isspace (c : ascii) : isspace (lower_char c) = isspace c.
Proof. by destruct c as [[] [] [] [] [] [] [] []]. Qed.

Lemma lower_char_space (c : ascii) : isspace c = true -> lower_char c = c.
Proof. by destruct c as [[] [] [] [] [] [] [] []]. Qed.

Lemma lower_char_punct (c : ascii) :
  lower_char c ∈ [lbrace; rbrace] ++ chars ".,:;" ->
  c ∈ [lbrace; rbrace] ++ chars ".,:;".
Proof.
  cbn [chars list_ascii_of_string app]. rewrite !elem_of_cons, !elem_of_nil.
  destruct c as [[] [] [] [] [] [] [] []]; vm_compute; intuition discriminate.
Qed.

Lemma lstrip_lower (s : str) : lstrip (lower s) = lower (lstrip s).
Proof.
  induction s as [|c s IH]; [done|]. cbn [lower map lstrip].
  rewrite lower_char_isspace. by destruct (isspace c).
Qed.

Lemma rstrip_lower (s : str) : rstrip (lower s) = lower (rstrip s).
Proof.
  unfold rstrip.
  assert (forall t, rev (lower t) = lower (rev t)) as Hrev
    by (intros t; unfold lower; by rewrite map_rev).
  by rewrite Hrev, lstrip_lower, Hrev.
Qed.

Lemma strip_lower (s : str) : strip (lower s) = lower (strip s).
Proof. unfold strip. by rewrite lstrip_lower, rstrip_lower. Qed.

Lemma collapsed_lower (s : str) :
  forall in_run, collapsed in_run (lower s) = collapsed in_run s.
Proof.
  induction s as [|c s IH]; intros in_run; [done|]. cbn [lower map collapsed].
  rewrite lower_char_isspace. destruct (isspace c) eqn:E.
  - rewrite (lower_char_space c E). f_equal. apply IH.
  - apply IH.
Qed.

Lemma remove_chars_none (class : list ascii) (s : str) :
  Forall (fun c => c ∉ class) s -> remove_chars class s = s.
Proof.
  unfold remove_chars. induction 1 as [|c s Hc _ IH]; [done|].
  rewrite filter_cons, decide_True by done. by rewrite IH.
Qed.

Lemma remove_chars_elem (class : list ascii) (s : str) (c : ascii) :
  c ∈ remove_chars class s <-> (c ∉ class) /\ (c ∈ s).
Proof.
  unfold remove_chars.
  apply (list_elem_of_filter (fun c => c ∉ class)).
Qed.

(** The characters of a normalised name: none is a brace or one of the
    four punctuation marks. *)
Lemma normalize_journal_name_chars (value : str) :
  Forall (fun c => c ∉ [lbrace; rbrace] ++ chars ".,:;")
    (_normalize_journal_name value).
Proof.
  apply Forall_forall. intros c Hc Hclass.
  unfold _normalize_journal_name, lower in Hc.
  apply list_elem_of_In, in_map_iff in Hc as (a & <- & Ha).
  apply lower_char_punct in Hclass.
  apply list_elem_of_In, strip_elem, sub_spaces_elem in Ha as [->|[Ha _]].
  - revert Hclass. apply (bool_decide_unpack _). vm_compute. exact I.
  - apply remove_chars_elem in Ha as [Hp Ha].
    apply remove_chars_elem in Ha as [Hb _].
    apply elem_of_app in Hclass as [?|?]; done.
Qed.

(** X12. The key under which a journal name is looked up is in normal form: it
    holds no brace and none of [.,:;], no capital letter is left (lowering
    it again changes nothing), its whitespace is single spaces between
    other characters, and normalising it again gives the same key. *)
Theorem normalize_journal_name_normal (value : str) :
  let key := _normalize_journal_name value in
  Forall (fun c => c ∉ [lbrace; rbrace] ++ chars ".,:;") key
  /\ lower key = key
  /\ strip key = key
  /\ collapsed true key = true
  /\ _normalize_journal_name key = key.
Proof.
  cbn zeta.
  pose proof (normalize_journal_name_chars value) as Hchars.
  assert (lower (_normalize_journal_name value) = _normalize_journal_name value)
    as Hlower.
  { unfold _normalize_journal_name, lower. rewrite map_map.
    apply map_ext. intros c. apply lower_char_idem. }
  assert (strip (_normalize_journal_name value) = _normalize_journal_name value)
    as Hstrip.
  { unfold _normalize_journal_name. by rewrite strip_lower, strip_idem. }
  assert (collapsed true (_normalize_journal_name value) = true) as Hcol.
  { unfold _normalize_journal_name. rewrite collapsed_lower.
    apply collapsed_oneline. }
  repeat split; try done.
  unfold _normalize_journal_name at 1.
  rewrite (remove_chars_none [lbrace; rbrace]).
  2: { eapply Forall_impl; [exact Hchars|]. intros c Hc Hin. apply Hc.
       apply elem_of_app. by left. }
  rewrite (remove_chars_none (chars ".,:;")).
  2: { eapply Forall_impl; [exact Hchars|]. intros c Hc Hin. apply Hc.
       apply elem_of_app. by right. }
  rewrite (collapsed_fixed _ false) by (by apply collapsed_weaken).
  by rewrite Hstrip.
Qed.

Example normalize_sample :
  _normalize_journal_name (chars "  {Commun.}   ACM; ") = chars "commun acm".
Proof. reflexivity. Qed.

(** ** Start indices of the scanners *)

Lemma getitem_in_range (text : str) (i : Z) :
  - len text <= i < len text -> exists c, getitem text i = Some c.
Proof.
  intros Hi. unfold getitem, len in *.
  destruct (Z.leb_spec 0 i).
  - apply lookup_lt_is_Some_2. lia.
  - destruct (Z.leb_spec 0 (Z.of_nat (length text) + i)); [|lia].
    apply lookup_lt_is_Some_2. lia.
Qed.

Lemma braced_loop_returns (text : str) (remaining : nat) :
  forall depth acc,
    Z.of_nat remaining <= 2 * len text ->
    exists result, braced_loop text remaining depth acc = Return result.
Proof.
  induction remaining as [|remaining IH]; intros depth acc Hr;
    cbn [braced_loop]; [by eexists|].
  destruct (getitem_in_range text (len text - Z.of_nat (S remaining)))
    as [c ->]; [lia|].
  destruct (Ascii.eqb c lbrace); [apply IH; lia|].
  destruct (Ascii.eqb c rbrace); [|apply IH; lia].
  destruct (depth =? 0); [by eexists|apply IH; lia].
Qed.

Lemma quoted_loop_returns (text : str) (remaining : nat) :
  forall acc,
    Z.of_nat remaining < 2 * len text ->
    exists result, quoted_loop text remaining acc = Return result.
Proof.
  induction remaining as [|remaining IH]; intros acc Hr;
    cbn [quoted_loop]; [by eexists|].
  destruct (getitem_in_range text (len text - Z.of_nat (S remaining)))
    as [c ->]; [lia|].
  destruct (Ascii.eqb c dquote); [|apply IH; lia].
  destruct (getitem_in_range text (len text - Z.of_nat (S remaining) - 1))
    as [b ->]; [lia|].
  destruct (negb (Ascii.eqb b backslash)); [by eexists|apply IH; lia].
Qed.

(** X1. The scanners and their start index: at or beyond the end of the text
    they return [None]; from [-len(text)] on they never raise, negative
    indices counting from the end as Python has it; below [-len(text)]
    they raise [IndexError]. *)
Theorem extract_value_start_index (text : str) (start_index : Z) :
  (len text <= start_index ->
   _extract_braced_value text start_index = Return None
   /\ _extract_quoted_value text start_index = Return None)
  /\ (- len text <= start_index ->
      (exists result, _extract_braced_value text start_index = Return result)
      /\ (exists result, _extract_quoted_value text start_index = Return result))
  /\ (start_index < - len text ->
      _extract_braced_value text start_index = Raise IndexError
      /\ _extract_quoted_value text start_index = Raise IndexError).
Proof.
  unfold _extract_braced_value, _extract_quoted_value.
  pose proof (Nat2Z.is_nonneg (length text)) as Hlen. fold (len text) in Hlen.
  split; [|split].
  - intros H. by destruct (Z.leb_spec (len text) start_index); [|lia].
  - intros H. destruct (Z.leb_spec (len text) start_index); [by split; eexists|].
    destruct (getitem_in_range text start_index) as [c ->]; [lia|].
    split.
    + destruct (negb (Ascii.eqb c lbrace)); [by eexists|].
      apply braced_loop_returns. lia.
    + destruct (negb (Ascii.eqb c dquote)); [by eexists|].
      apply quoted_loop_returns. lia.
  - intros H. destruct (Z.leb_spec (len text) start_index); [lia|].
    unfold getitem. destruct (Z.leb_spec 0 start_index); [lia|].
    by destruct (Z.leb_spec 0 (len text + start_index)); [lia|].
Qed.

Lemma extract_value_start_index_witness :
  _extract_braced_value (chars "{a}") 3 = Return None
  /\ (exists result, _extract_braced_value (chars "{a}") (-3) = Return result)
  /\ _extract_quoted_value (chars "{a}") (-4) = Raise IndexError.
Proof.
  split; [|split].
  - apply (proj1 (extract_value_start_index (chars "{a}") 3)). unfold len. cbn. lia.
  - apply (proj1 (proj2 (extract_value_start_index (chars "{a}") (-3)))).
    unfold len. cbn. lia.
  - apply (proj2 (proj2 (extract_value_start_index (chars "{a}") (-4)))).
    unfold len. cbn. lia.
Defined.

Example braced_negative_index :
  _extract_braced_value (chars "{a}") (-3) = Return (Some (chars "a")).
Proof. reflexivity. Qed.

(** ** What a selection returns *)

Lemma hit_at_elem {Hit : Type} (hits : list Hit) (i : Z) (hit : Hit) :
  hit_at hits i = Return hit -> hit ∈ hits.
Proof.
  unfold hit_at.
  destruct (if 0 <=? i then _ else _) as [h|] eqn:E; [|done].
  intros [= <-].
  destruct (0 <=? i); [by apply list_elem_of_lookup_2 in E|].
  destruct (0 <=? _); [by apply list_elem_of_lookup_2 in E|done].
Qed.

Lemma prompt_loop_elem {Hit : Type} (hits : list Hit) (stdin : list str) :
  forall out hit,
    fst (prompt_loop hits stdin out) = Return (Selected hit) -> hit ∈ hits.
Proof.
  induction stdin as [|line stdin IH]; intros out hit; cbn [prompt_loop fst].
  - destruct (hit_at hits 0) as [h|] eqn:E; [|done].
    intros [= <-]. by apply hit_at_elem in E.
  - case_bool_decide; [done|].
    destruct (isdigit _); [|apply IH].
    destruct (int_of_str _) as [n|]; [|done].
    destruct (_ && _); [|apply IH]. cbn [fst].
    destruct (hit_at hits (n - 1)) as [h|] eqn:E; [|done].
    intros [= <-]. by apply hit_at_elem in E.
Qed.

Lemma selector_from_elem {Hit : Type} (hits : list Hit) (keys : list Z) :
  forall idx hit,
    selector_from hits idx keys = Return (Finished (Selected hit)) -> hit ∈ hits.
Proof.
  induction keys as [|key keys IH]; intros idx hit; cbn [selector_from]; [done|].
  destruct (selector_step hits idx key) as [[idx'|r]|e] eqn:E; [apply IH| |done].
  intros [= ->]. unfold selector_step in E.
  repeat case_bool_decide; try (by destruct (_ =? 0)); try done.
  destruct (hit_at hits idx) as [h|] eqn:Eh; [|done].
  injection E as <-. by apply hit_at_elem in Eh.
Qed.

(** X13. Whatever is typed, a selection that ends with a hit ends with one of
    the candidates: this holds for the numbered prompt, with its list
    printed first or not, and for the menu from any cursor. *)
Theorem selection_among_hits (Hit : Type) (hits : list Hit) (hit : Hit) :
  (forall descriptions stdin,
      fst (choose_with_numbers hits descriptions stdin) = Return (Selected hit) ->
      hit ∈ hits)
  /\ (forall idx keys,
         selector_from hits idx keys = Return (Finished (Selected hit)) ->
         hit ∈ hits).
Proof.
  split.
  - intros descriptions stdin. apply prompt_loop_elem.
  - intros idx keys. apply selector_from_elem.
Qed.

Lemma selection_among_hits_witness : 20%nat ∈ [10%nat; 20%nat; 30%nat].
Proof.
  apply (proj1 (selection_among_hits nat [10%nat; 20%nat; 30%nat] 20%nat)
           [] [chars "7"; chars "2"]).
  reflexivity.
Defined.

(** ** When the numbered prompt raises *)







(** ** From the record to the printed text *)

Lemma parse_entry_header_returns (bibtex : str) :
  exists header, parse_entry_header bibtex = Return header.
Proof.
  unfold parse_entry_header.
  destruct (header_search bibtex) as [[t key]|]; [|by eexists].
  destruct (entry_key_cases key) as (k1 & d1 & -> & _).
  destruct (entry_name_cases k1) as (k2 & d2 & -> & _). by eexists.
Qed.

Lemma merge_crossref_fields_returns (http_get : str -> outcome str)
    (bibtex : str) (fields : gmap str (option str)) :
  exists fields', merge_crossref_fields http_get bibtex fields = Return fields'.
Proof.
  unfold merge_crossref_fields.
  destruct (truthy _ || truthy _); [by eexists|].
  destruct (extract_field_value_returns bibtex (chars "crossref")) as [x ->].
  destruct x as [[|c key]|]; [by eexists| |by eexists].
  destruct (fetch_bibtex_entry http_get (c :: key)); [|by eexists].
  apply merge_loop_returns.
Qed.

Lemma extract_fields_frame (names : list str) (bibtex : str) :
  forall fields fields' name,
    extract_fields names bibtex fields = Return fields' ->
    name ∉ names ->
    fields' !! name = fields !! name.
Proof.
  induction names as [|k names IH]; intros fields fields' name;
    cbn [extract_fields].
  - by intros [= ->].
  - destruct (extract_field_value bibtex k) as [value|]; [|done].
    intros H [Hk Hname]%not_elem_of_cons.
    rewrite (IH _ _ _ H Hname). by rewrite lookup_insert_ne.
Qed.

Lemma extract_fields_lookup (names : list str) (bibtex : str) :
  forall fields fields' name,
    NoDup names ->
    extract_fields names bibtex fields = Return fields' ->
    name ∈ names ->
    exists value,
      extract_field_value bibtex name = Return value
      /\ fields' !! name = Some value.
Proof.
  induction names as [|k names IH]; intros fields fields' name Hnd;
    cbn [extract_fields]; [by intros _ ?%elem_of_nil|].
  apply NoDup_cons in Hnd as [Hk Hnd].
  destruct (extract_field_value bibtex k) as [value|] eqn:E; [|done].
  intros H [->|Hin]%elem_of_cons.
  - exists value. split; [done|].
    rewrite (extract_fields_frame _ _ _ _ _ H Hk). by rewrite lookup_insert_eq.
  - by apply (IH _ _ _ Hnd H Hin).
Qed.

Lemma extract_fields_returns (names : list str) (bibtex : str) :
  forall fields, exists fields', extract_fields names bibtex fields = Return fields'.
Proof.
  induction names as [|k names IH]; intros fields; cbn [extract_fields];
    [by eexists|].
  destruct (extract_field_value_returns bibtex k) as [value ->]. apply IH.
Qed.

Lemma dict_get_lookup (fields : gmap str (option str)) (name : str)
    (value : option str) :
  fields !! name = Some value -> dict_get fields name = value.
Proof. unfold dict_get. by intros ->. Qed.

Lemma NoDup_FIELD_ORDER : NoDup FIELD_ORDER.
Proof. apply (bool_decide_unpack _). vm_compute. exact I. Qed.

(** X18. Once the record is fetched, printing it cannot fail: whatever the text
    of the record and whatever the transport does when the crossref is
    followed, the body of [main] reaches its [print]. *)
Theorem main_record_returns (http_get : str -> outcome str) (bibtex : str) :
  exists text, main_record http_get bibtex = Return text.
Proof.
  unfold main_record.
  destruct (parse_entry_header_returns bibtex) as [[t k] ->].
  destruct (extract_fields_returns FIELD_ORDER bibtex ∅) as [fields ->].
  destruct (merge_crossref_fields_returns http_get bibtex fields) as [fields' ->].
  by eexists.
Qed.

(** X19. The transport is used for the crossref only, and only when it is
    needed: for a record in which the lookup of booktitle or of series
    finds a value, or in which the lookup of crossref finds none, the
    printed text is the same whatever the transport answers. *)
Theorem main_record_no_fetch (http_get1 http_get2 : str -> outcome str)
    (bibtex : str) (value : option str) :
  (truthy value = true
   /\ (extract_field_value bibtex (chars "booktitle") = Return value
       \/ extract_field_value bibtex (chars "series") = Return value))
  \/ (truthy value = false
      /\ extract_field_value bibtex (chars "crossref") = Return value) ->
  main_record http_get1 bibtex = main_record http_get2 bibtex.
Proof.
  intros Hcase. unfold main_record.
  destruct (parse_entry_header bibtex) as [[t k]|]; [|done].
  destruct (extract_fields FIELD_ORDER bibtex ∅) as [fields|] eqn:E; [|done].
  assert (forall h, merge_crossref_fields h bibtex fields = Return fields) as Hm.
  { intros h. unfold merge_crossref_fields.
    destruct Hcase as [[Hv [Hx|Hx]]|[Hv Hx]].
    - destruct (extract_fields_lookup _ _ _ _ (chars "booktitle")
                  NoDup_FIELD_ORDER E) as (v & Hv' & Hl).
      { apply (bool_decide_unpack _). vm_compute. exact I. }
      rewrite Hx in Hv'. injection Hv' as <-.
      rewrite (dict_get_lookup _ _ _ Hl). by rewrite Hv.
    - destruct (extract_fields_lookup _ _ _ _ (chars "series")
                  NoDup_FIELD_ORDER E) as (v & Hv' & Hl).
      { apply (bool_decide_unpack _). vm_compute. exact I. }
      rewrite Hx in Hv'. injection Hv' as <-.
      rewrite (dict_get_lookup _ (chars "series") _ Hl), Hv.
      by rewrite orb_true_r.
    - destruct (_ || _); [done|]. rewrite Hx.
      by destruct value as [[|c key]|]. }
  by rewrite !Hm.
Qed.

Lemma main_record_no_fetch_witness :
  main_record http_get_failing
    (chars "@inproceedings{k, title = {T}, booktitle = {Proc. X}, crossref = {c}}")
  = main_record http_get_proceedings
      (chars "@inproceedings{k, title = {T}, booktitle = {Proc. X}, crossref = {c}}").
Proof.
  apply (main_record_no_fetch _ _ _ (Some (chars "Proc. X"))).
  left. split; [reflexivity|]. left. reflexivity.
Defined.

(** ** Moves of the menu cursor *)

(** X16. In the menu, next and previous undo each other; [k] presses of next
    from the first candidate followed by Enter select candidate
    [k mod N]; and any number of presses followed by the escape key
    cancels. *)
Theorem selector_moves (Hit : Type) (hits : list Hit) (idx : Z) (k : nat) :
  0 < Z.of_nat (length hits) ->
  0 <= idx < Z.of_nat (length hits) ->
  selector_from hits idx [KEY_DOWN; KEY_UP] = Return (Active idx)
  /\ selector_from hits idx [KEY_UP; KEY_DOWN] = Return (Active idx)
  /\ (exists hit,
        hits !! Z.to_nat (Z.of_nat k mod Z.of_nat (length hits)) = Some hit
        /\ selector hits (replicate k KEY_DOWN ++ [KEY_ENTER])
           = Return (Finished (Selected hit)))
  /\ selector hits (replicate k KEY_DOWN ++ [27]) = Return (Finished Cancelled).
Proof.
  intros Hn Hidx.
  assert (Hrun : forall keys,
             selector hits (replicate k KEY_DOWN ++ keys)
             = selector_from hits (Z.of_nat k mod Z.of_nat (length hits)) keys).
  { intros keys. unfold selector.
    assert (forall j i, 0 <= i < Z.of_nat (length hits) ->
              selector_from hits i (replicate j KEY_DOWN ++ keys)
              = selector_from hits ((i + Z.of_nat j) mod Z.of_nat (length hits)) keys)
      as Hgen.
    { induction j as [|j IH]; intros i Hi; cbn [replicate app selector_from].
      - by rewrite Z.add_0_r, Z.mod_small.
      - rewrite (selector_step_down hits Hn) by (by left).
        rewrite IH by (by apply Z.mod_pos_bound).
        rewrite Zplus_mod_idemp_l. do 2 f_equal. lia. }
    rewrite (Hgen k 0) by lia. by rewrite Z.add_0_l. }
  split; [|split; [|split]].
  - cbn [selector_from]. rewrite (selector_step_down hits Hn) by (by left).
    rewrite (selector_step_up hits Hn) by (by left).
    rewrite Zminus_mod_idemp_l. do 2 f_equal.
    replace (idx + 1 - 1) with idx by lia. by apply Z.mod_small.
  - cbn [selector_from]. rewrite (selector_step_up hits Hn) by (by left).
    rewrite (selector_step_down hits Hn) by (by left).
    rewrite Zplus_mod_idemp_l. do 2 f_equal.
    replace (idx - 1 + 1) with idx by lia. by apply Z.mod_small.
  - pose proof (Z.mod_pos_bound (Z.of_nat k) _ Hn) as Hk.
    destruct (lookup_lt_is_Some_2 hits
                (Z.to_nat (Z.of_nat k mod Z.of_nat (length hits))))
      as [hit Hhit]; [lia|].
    exists hit. split; [done|]. rewrite Hrun. cbn [selector_from].
    unfold selector_step, hit_at.
    destruct (Z.leb_spec 0 (Z.of_nat k mod Z.of_nat (length hits))); [|lia].
    by rewrite Hhit.
  - rewrite Hrun. reflexivity.
Qed.

Lemma selector_moves_witness :
  selector [10%nat; 20%nat; 30%nat] (replicate 4 KEY_DOWN ++ [27])
  = Return (Finished Cancelled).
Proof.
  apply (selector_moves nat [10%nat; 20%nat; 30%nat] 0 4); cbn; lia.
Defined.

Example selector_four_down_enter :
  selector [10%nat; 20%nat; 30%nat] (replicate 4 KEY_DOWN ++ [KEY_ENTER])
  = Return (Finished (Selected 20%nat)).
Proof. reflexivity. Qed.

(** ** One round of the numbered prompt *)

(** X15. One round of the numbered prompt, for at least one candidate: a blank
    line selects the first candidate, as does the end of the input; the
    letter q in either case cancels; a number from one to the count selects
    the candidate of that number; any other line, provided that [int] can
    read it when it passes [isdigit], is answered with the notice and the
    prompt is repeated. *)
Theorem numbered_prompt_round (Hit : Type) (first : Hit) (others : list Hit)
    (line : str) (stdin : list str) (out : str) :
  let hits := first :: others in
  let prompted := out ++ select_prompt hits in
  prompt_loop hits [] out = (Return (Selected first), prompted)
  /\ (strip line = [] ->
      prompt_loop hits (line :: stdin) out = (Return (Selected first), prompted))
  /\ (lower (strip line) = chars "q" ->
      prompt_loop hits (line :: stdin) out = (Return Cancelled, prompted))
  /\ (forall n hit,
         isdigit (strip line) = true ->
         int_of_str (strip line) = Return n ->
         hits !! Z.to_nat (n - 1) = Some hit -> 1 <= n ->
         prompt_loop hits (line :: stdin) out = (Return (Selected hit), prompted))
  /\ (strip line <> [] ->
      lower (strip line) <> chars "q" ->
      (isdigit (strip line) = true ->
       exists n, int_of_str (strip line) = Return n
                 /\ ~ 1 <= n <= Z.of_nat (length hits)) ->
      prompt_loop hits (line :: stdin) out
      = prompt_loop hits stdin (print prompted invalid_notice)).
Proof.
  cbn zeta. split; [|split; [|split; [|split]]].
  - apply prompt_loop_eof.
  - apply prompt_loop_blank.
  - apply prompt_loop_cancel.
  - intros n hit Hd Hn Hhit Hpos.
    apply (prompt_loop_number first others line stdin out n hit Hd Hn); [|done].
    apply lookup_lt_Some in Hhit. lia.
  - intros Hne Hq Hcase. apply prompt_loop_retry; try done.
    destruct (isdigit (strip line)); [right; by apply Hcase|by left].
Qed.

Lemma numbered_prompt_round_witness :
  prompt_loop [10%nat; 20%nat] [chars "3"; chars "2"] []
  = prompt_loop [10%nat; 20%nat] [chars "2"]
      (print ([] ++ select_prompt [10%nat; 20%nat]) invalid_notice).
Proof.
  refine (proj2 (proj2 (proj2 (proj2
    (numbered_prompt_round nat 10%nat [20%nat] (chars "3") [chars "2"] []))))
    _ _ _); try done.
  intros _. exists 3. split; [reflexivity|]. cbn. lia.
Defined.

(** ** Merging twice *)

Lemma merge_loop_filled (names : list str) (crossref_bibtex : str) :
  forall fields,
    (forall name,
        name ∈ names -> truthy (dict_get fields name) = false ->
        exists value,
          extract_field_value crossref_bibtex name = Return value
          /\ fields !! name = Some value) ->
    merge_loop names crossref_bibtex fields = Return fields.
Proof.
  induction names as [|k names IH]; intros fields Hfilled; cbn [merge_loop];
    [done|].
  destruct (truthy (dict_get fields k)) eqn:Hk; cbn [negb].
  - apply IH. intros name Hin. apply Hfilled. by right.
  - destruct (Hfilled k) as (value & -> & Hl); [by left|done|].
    rewrite (insert_id fields k value Hl).
    apply IH. intros name Hin. apply Hfilled. by right.
Qed.

Lemma merge_loop_twice (names : list str) (crossref_bibtex : str)
    (fields fields' : gmap str (option str)) :
  NoDup names ->
  merge_loop names crossref_bibtex fields = Return fields' ->
  merge_loop names crossref_bibtex fields' = Return fields'.
Proof.
  intros Hnd H. apply merge_loop_filled. intros name Hin Hfalse.
  destruct (truthy (dict_get fields name)) eqn:Hname.
  - exfalso. pose proof (merge_loop_frame _ _ _ _ name H (or_intror Hname)) as E.
    unfold dict_get in *. rewrite E in Hfalse. congruence.
  - by apply (merge_loop_fill names crossref_bibtex fields fields' name).
Qed.

(** X17. Merging a second time changes nothing: with the same transport, the
    fields that [merge_crossref_fields] returns are returned unchanged when
    they are merged again. *)
Theorem merge_crossref_fields_twice (http_get : str -> outcome str)
    (bibtex : str) (fields fields' : gmap str (option str)) :
  merge_crossref_fields http_get bibtex fields = Return fields' ->
  merge_crossref_fields http_get bibtex fields' = Return fields'.
Proof.
  unfold merge_crossref_fields.
  destruct (truthy (dict_get fields (chars "booktitle"))
            || truthy (dict_get fields (chars "series"))) eqn:E.
  { intros [= <-]. by rewrite E. }
  destruct (truthy (dict_get fields' (chars "booktitle"))
            || truthy (dict_get fields' (chars "series"))); [done|].
  destruct (extract_field_value bibtex (chars "crossref")) as [x|]; [|done].
  destruct x as [[|c key]|]; [done| |done].
  destruct (fetch_bibtex_entry http_get (c :: key)) as [cb|]; [|done].
  apply merge_loop_twice.
  apply (bool_decide_unpack _). vm_compute. exact I.
Qed.

Lemma merge_crossref_fields_twice_witness :
  merge_crossref_fields http_get_proceedings paper_sample paper_fields_merged
  = Return paper_fields_merged.
Proof.
  apply (merge_crossref_fields_twice http_get_proceedings paper_sample
           paper_fields paper_fields_merged).
  vm_compute. reflexivity.
Defined.
